(** * Pirate Quest: the visit-tracking state engine of [app.js]

    A shallow embedding of the state-bearing part of [src/app.js]: the
    visited ledger, the selection cursor, the stamps-page cursor, the
    date-key normalisation and the handlers that mutate them.  The DOM,
    the Leaflet map and the overlays are presentation; of them the model
    keeps only what the handlers compute (the cards put on the stamps
    grid, the overlays requested). *)

From Stdlib Require Import ZArith Ascii String List Lia Sorted Permutation.
From stdpp Require Import gmap strings list.

Local Open Scope string_scope.
Local Open Scope Z_scope.

(** ** The JavaScript primitives the code relies on *)

Module Js.

(** [\d]: an ASCII digit. *)
Definition isDigit (c : ascii) : bool :=
  ((48 <=? nat_of_ascii c) && (nat_of_ascii c <=? 57))%nat.

(** The regular expressions of [app.js] are anchored sequences of
    single-character atoms ([\d{4}] is four [Digit] atoms). *)
Inductive atom : Type :=
| Digit
| Lit (c : ascii).

Definition atomMatches (a : atom) (c : ascii) : bool :=
  match a with
  | Digit => isDigit c
  | Lit c' => Ascii.eqb c c'
  end.

(** [/^...$/.test(s)]: without the [m] flag [$] is the end of input. *)
Fixpoint test (re : list atom) (s : string) : bool :=
  match re, s with
  | [], EmptyString => true
  | a :: re', String c s' => atomMatches a c && test re' s'
  | _, _ => false
  end.

(** [s.replace(/C/g, '')] for a one-character class [C]. *)
Fixpoint removeAll (cls : ascii -> bool) (s : string) : string :=
  match s with
  | EmptyString => EmptyString
  | String c s' =>
      if cls c then removeAll cls s' else String c (removeAll cls s')
  end.

(** [s.split(sep)] for a one-character separator. *)
Fixpoint split (sep : ascii) (s : string) : list string :=
  match s with
  | EmptyString => [EmptyString]
  | String c s' =>
      if Ascii.eqb c sep then EmptyString :: split sep s'
      else match split sep s' with
           | [] => [String c EmptyString]
           | w :: ws => String c w :: ws
           end
  end.

(** What a template literal prints for a destructured element that is
    not there. *)
Definition undefined : string := "undefined".

(** [a.localeCompare(b)].  Every string the code compares is a date key,
    which consists of ASCII digits only (lemma [dateKey_digits]); on
    such strings the collation order is the code-unit order. *)
Definition localeCompare (a b : string) : comparison := String.compare a b.

(** [arr.sort(cmp)]: a stable sort (ECMAScript 2019); insertion keeps an
    element in front of the later elements it does not exceed. *)
Fixpoint insertBy {A} (cmp : A -> A -> comparison) (x : A) (l : list A)
  : list A :=
  match l with
  | [] => [x]
  | y :: l' =>
      match cmp x y with
      | Gt => y :: insertBy cmp x l'
      | _ => x :: l
      end
  end.

Fixpoint sort {A} (cmp : A -> A -> comparison) (l : list A) : list A :=
  match l with
  | [] => []
  | x :: l' => insertBy cmp x (sort cmp l')
  end.

(** [arr.slice(start, end)], negative arguments counting from the end. *)
Definition relIndex (len i : Z) : Z :=
  if i <? 0 then Z.max (len + i) 0 else Z.min i len.

Definition slice {A} (l : list A) (start end_ : Z) : list A :=
  let len := Z.of_nat (length l) in
  let k := relIndex len start in
  let final := relIndex len end_ in
  take (Z.to_nat (final - k)) (drop (Z.to_nat k) l).

(** [arr[i]] for a number [i]: [undefined] out of range. *)
Definition index {A} (l : list A) (i : Z) : option A :=
  if i <? 0 then None else l !! Z.to_nat i.

(** [Math.ceil(a / b)] for integers [a] and [b > 0]. *)
Definition ceilDiv (a b : Z) : Z := - ((- a) / b).

End Js.

(** ** Data model *)

(** A catalog entry.  Only the fields the state engine reads. *)
Record Pool : Type := mkPool { id : string; name : string }.

(** [{ done: true, date: "16/12/2025" }].  A stored record without a
    [date] behaves, in [dateKey], like one whose date is the empty string
    (both are falsy). *)
Record VisitRecord : Type := mkVisit { done : bool; date : string }.

Abbreviation Ledger := (gmap string VisitRecord).

#[global] Instance Pool_eq_dec : EqDecision Pool.
Proof. solve_decision. Defined.

#[global] Instance VisitRecord_eq_dec : EqDecision VisitRecord.
Proof. solve_decision. Defined.

(** ** Date helpers *)

(** [/^\d{4}-\d{2}-\d{2}$/] *)
Definition reISO : list Js.atom :=
  [Js.Digit; Js.Digit; Js.Digit; Js.Digit; Js.Lit "-";
   Js.Digit; Js.Digit; Js.Lit "-"; Js.Digit; Js.Digit]%char.

(** [/^\d{2}\/\d{2}\/\d{4}$/] *)
Definition reAU : list Js.atom :=
  [Js.Digit; Js.Digit; Js.Lit "/"; Js.Digit; Js.Digit; Js.Lit "/";
   Js.Digit; Js.Digit; Js.Digit; Js.Digit]%char.

(** [function dateKey(d)] *)
Definition dateKey (d : string) : string :=
  if String.eqb d "" then ""
  else if Js.test reISO d then Js.removeAll (Ascii.eqb "-") d
  else if Js.test reAU d then
    let parts := Js.split "/" d in
    let day := nth 0 parts Js.undefined in
    let month := nth 1 parts Js.undefined in
    let year := nth 2 parts Js.undefined in
    year +:+ month +:+ day
  else Js.removeAll (fun c => negb (Js.isDigit c)) d.

(** [function formatDateAU(d)] *)
Definition formatDateAU (d : string) : string :=
  if String.eqb d "" then ""
  else if Js.test reISO d then
    let parts := Js.split "-" d in
    let y := nth 0 parts Js.undefined in
    let m := nth 1 parts Js.undefined in
    let day := nth 2 parts Js.undefined in
    day +:+ "/" +:+ m +:+ "/" +:+ y
  else d.

(** ** Persistent store

    Modelled from the spec: [storage.js] ([readVisited], [writeVisited],
    [countVisited], [readSelection], [writeSelection], [readStampsPage],
    [writeStampsPage]) is imported by [app.js] but is not among the
    sources.  The spec gives three independent entries, each with a default
    when absent: the visited ledger ([{}]), the selection index ([0]) and
    the stamps page index ([0]); a write replaces the entry.  Writes are
    taken to succeed: a store that refuses a write (quota) is outside this
    model. *)
Record Storage : Type := mkStorage {
  savedVisited : option Ledger;
  savedSelection : option Z;
  savedStampsPage : option Z
}.

Definition readVisited (st : Storage) : Ledger := default ∅ (savedVisited st).
Definition readSelection (st : Storage) : Z := default 0 (savedSelection st).
Definition readStampsPage (st : Storage) : Z := default 0 (savedStampsPage st).

(** Modelled from the spec: [count()] is the number of records with
    [done == true]. *)
Definition countVisited (v : Ledger) : Z :=
  Z.of_nat (size (filter (λ kv : string * VisitRecord, done kv.2 = true) v)).

(** ** Application state *)

(** What [showTreasureOverlay] was asked to show. *)
Inductive Overlay : Type :=
| TreasureFound (subtitle : string)
| AllTreasureFound.

(** The module-level variables of [app.js], the store behind
    [storage.js], and the overlays requested so far (oldest first). *)
Record App : Type := mkApp {
  pools : list Pool;
  visited : Ledger;
  selectedIndex : Z;
  currentStampsPage : Z;
  onStampsView : bool;
  storage : Storage;
  overlays : list Overlay
}.

(** A handler runs to a normal completion or to a throw completion; the
    variables keep what was assigned before the throw. *)
Inductive completion (A : Type) : Type :=
| Normal (a : A)
| Thrown.
Arguments Normal {A} a.
Arguments Thrown {A}.

Definition Handler (A : Type) : Type := App -> completion A * App.

#[global] Instance Handler_ret : MRet Handler :=
  λ A (a : A) (s : App), (Normal a, s).

#[global] Instance Handler_bind : MBind Handler :=
  λ A B (k : A -> Handler B) (m : Handler A) (s : App),
    match m s with
    | (Normal a, s') => k a s'
    | (Thrown, s') => (Thrown, s')
    end.

Definition get : Handler App := λ s, (Normal s, s).
Definition modify (f : App -> App) : Handler unit := λ s, (Normal tt, f s).
Definition throw {A} : Handler A := λ s, (Thrown, s).

(** The state a handler leaves behind, however it completes. *)
Definition exec {A} (h : Handler A) (s : App) : App := snd (h s).

Definition setPools (ps : list Pool) : Handler unit :=
  modify (λ s, mkApp ps (visited s) (selectedIndex s) (currentStampsPage s)
                     (onStampsView s) (storage s) (overlays s)).
Definition setVisited (v : Ledger) : Handler unit :=
  modify (λ s, mkApp (pools s) v (selectedIndex s) (currentStampsPage s)
                     (onStampsView s) (storage s) (overlays s)).
Definition setSelectedIndex (i : Z) : Handler unit :=
  modify (λ s, mkApp (pools s) (visited s) i (currentStampsPage s)
                     (onStampsView s) (storage s) (overlays s)).
Definition setCurrentStampsPage (p : Z) : Handler unit :=
  modify (λ s, mkApp (pools s) (visited s) (selectedIndex s) p
                     (onStampsView s) (storage s) (overlays s)).
Definition setOnStampsView (b : bool) : Handler unit :=
  modify (λ s, mkApp (pools s) (visited s) (selectedIndex s)
                     (currentStampsPage s) b (storage s) (overlays s)).
Definition setStorage (st : Storage) : Handler unit :=
  modify (λ s, mkApp (pools s) (visited s) (selectedIndex s)
                     (currentStampsPage s) (onStampsView s) st (overlays s)).

Definition writeVisited (v : Ledger) : Handler unit :=
  s ← get;
  setStorage (mkStorage (Some v) (savedSelection (storage s))
                        (savedStampsPage (storage s))).
Definition writeSelection (i : Z) : Handler unit :=
  s ← get;
  setStorage (mkStorage (savedVisited (storage s)) (Some i)
                        (savedStampsPage (storage s))).
Definition writeStampsPage (p : Z) : Handler unit :=
  s ← get;
  setStorage (mkStorage (savedVisited (storage s))
                        (savedSelection (storage s)) (Some p)).

(** [showTreasureOverlay({...})] *)
Definition showTreasureOverlay (o : Overlay) : Handler unit :=
  modify (λ s, mkApp (pools s) (visited s) (selectedIndex s)
                     (currentStampsPage s) (onStampsView s) (storage s)
                     (overlays s ++ [o])).

(** The module-level initialisers: [let pools = []; let visited =
    readVisited(); ...]. *)
Definition boot (st : Storage) : App :=
  mkApp [] (readVisited st) (readSelection st) (readStampsPage st) false st [].

(** ** Visit ledger *)

(** [visited[id]?.done] as a condition. *)
Definition isVisited (v : Ledger) (i : string) : bool :=
  match v !! i with
  | Some r => done r
  | None => false
  end.

(** The condition under which [toggleStamp] schedules the finale:
    [pools.length > 0 && done === pools.length] with
    [done = countVisited(visited)]. *)
Definition completionReached (v : Ledger) (totalLocations : Z) : bool :=
  (0 <? totalLocations) && (countVisited v =? totalLocations).

(** ** Rendering *)

(** [renderList()].  With a non-empty catalog it reads
    [visited[p.id]] for [p = pools[selectedIndex]], a TypeError when the
    index is out of range.  The row it builds is presentation. *)
Definition renderList : Handler unit :=
  s ← get;
  if decide (pools s = []) then mret tt
  else match Js.index (pools s) (selectedIndex s) with
       | None => throw
       | Some _ => mret tt
       end.

(** [panToSelected()] moves the Leaflet marker; it is only called after a
    [renderList()] that completed normally, where [pools[selectedIndex]]
    exists (or there is no map), and it assigns no variable. *)
Definition panToSelected : Handler unit := mret tt.

(** [updateCount()] writes the badge text. *)
Definition updateCount : Handler unit := mret tt.

(** [visited[p.id].date] for a pool that passed the filter (the record is
    there). *)
Definition dateOf (v : Ledger) (p : Pool) : string :=
  match v !! id p with
  | Some r => date r
  | None => ""
  end.

(** [pools.filter(p => visited[p.id]?.done).sort((a, b) =>
    dateKey(visited[a.id].date).localeCompare(dateKey(visited[b.id].date)))] *)
Definition byDateKey (v : Ledger) (a b : Pool) : comparison :=
  Js.localeCompare (dateKey (dateOf v a)) (dateKey (dateOf v b)).

Definition visitedPools (v : Ledger) (ps : list Pool) : list Pool :=
  Js.sort (byDateKey v) (List.filter (λ p, isVisited v (id p)) ps).

(** [Math.max(1, Math.ceil(visitedPools.length / stampsPerPage))] *)
Definition totalPages (visitedCount perPage : Z) : Z :=
  Z.max 1 (Js.ceilDiv visitedCount perPage).

(** The body of [renderStamps], with the local constant [stampsPerPage]
    as a parameter.  The result is the list of pools whose cards are put
    on the grid ([pagePools]); the grid, like the other elements the
    script looks up, is taken to be in the page. *)
Definition renderStampsAt (perPage : Z) : Handler (list Pool) :=
  s ← get;
  let visitedPools := visitedPools (visited s) (pools s) in
  let totalPages := totalPages (Z.of_nat (length visitedPools)) perPage in
  setCurrentStampsPage (Z.min (currentStampsPage s) (totalPages - 1));;
  s ← get;
  writeStampsPage (currentStampsPage s);;
  mret (Js.slice visitedPools
          (currentStampsPage s * perPage)
          (currentStampsPage s * perPage + perPage)).

(** [const stampsPerPage = 2;] *)
Definition stampsPerPage : Z := 2.

(** [function renderStamps(popId = null)]; [popId] only picks a CSS
    class. *)
Definition renderStamps : Handler (list Pool) := renderStampsAt stampsPerPage.

(** [function setView(showStamps)] *)
Definition setView (showStamps : bool) : Handler unit :=
  setOnStampsView showStamps;;
  if showStamps then renderStamps;; mret tt else mret tt.

(** ** Visited state toggling *)

(** [function toggleStamp(poolId, animate = false)].  [today] is what
    [new Intl.DateTimeFormat('en-AU').format(new Date())] returns at the
    time of the call. *)
Definition toggleStamp (poolId today : string) : Handler unit :=
  s ← get;
  if String.eqb poolId "" then mret tt
  else if isVisited (visited s) poolId then mret tt
  else match find (λ x, String.eqb (id x) poolId) (pools s) with
       | None => mret tt
       | Some p =>
           setVisited (<[poolId := mkVisit true today]> (visited s));;
           s ← get;
           writeVisited (visited s);;
           renderList;;
           renderStamps;;
           showTreasureOverlay (TreasureFound (name p));;
           s ← get;
           if completionReached (visited s) (Z.of_nat (length (pools s)))
           then showTreasureOverlay AllTreasureFound
           else mret tt
       end.

(** ** Initialisation and event handlers *)

(** [init()] up to the first render; [loaded] is what [loadPools()]
    resolved to. *)
Definition init (loaded : list Pool) : Handler unit :=
  setPools loaded;;
  s ← get;
  (if selectedIndex s <? 0 then setSelectedIndex 0 else mret tt);;
  s ← get;
  (if selectedIndex s >=? Z.of_nat (length (pools s))
   then setSelectedIndex (Z.max 0 (Z.of_nat (length (pools s)) - 1))
   else mret tt);;
  renderList;;
  panToSelected;;
  updateCount;;
  setView false.

(** The [resetBtn] click listener; [ok] is the answer to [confirm(...)]. *)
Definition resetClick (ok : bool) : Handler unit :=
  if negb ok then mret tt
  else
    setVisited ∅;;
    s ← get;
    writeVisited (visited s);;
    setCurrentStampsPage 0;;
    s ← get;
    writeStampsPage (currentStampsPage s);;
    renderList;;
    renderStamps;;
    updateCount.

(** The [btnUp] click listener.  [%] is the truncating remainder. *)
Definition btnUpClick : Handler unit :=
  s ← get;
  if decide (pools s = []) then mret tt
  else
    setSelectedIndex
      (Z.rem (selectedIndex s + 1) (Z.of_nat (length (pools s))));;
    s ← get;
    writeSelection (selectedIndex s);;
    renderList;;
    panToSelected.

(** The [btnDown] click listener. *)
Definition btnDownClick : Handler unit :=
  s ← get;
  if decide (pools s = []) then mret tt
  else
    setSelectedIndex
      (Z.rem (selectedIndex s - 1 + Z.of_nat (length (pools s)))
             (Z.of_nat (length (pools s))));;
    s ← get;
    writeSelection (selectedIndex s);;
    renderList;;
    panToSelected.

(** The [prevStampsPageBtn] click listener. *)
Definition prevStampsPageClick : Handler unit :=
  s ← get;
  setCurrentStampsPage (Z.max 0 (currentStampsPage s - 1));;
  s ← get;
  writeStampsPage (currentStampsPage s);;
  renderStamps;;
  mret tt.

(** The [nextStampsPageBtn] click listener. *)
Definition nextStampsPageClick : Handler unit :=
  s ← get;
  setCurrentStampsPage (currentStampsPage s + 1);;
  s ← get;
  writeStampsPage (currentStampsPage s);;
  renderStamps;;
  mret tt.

(** The [toggleBtn] click listener. *)
Definition toggleBtnClick : Handler unit :=
  s ← get;
  setView (negb (onStampsView s)).

(** The user-triggered operations, one at a time. *)
Inductive Event : Type :=
| ClaimTreasure (poolId today : string)
| Reset (ok : bool)
| Up
| Down
| PrevStampsPage
| NextStampsPage
| ToggleView.

Definition handle (e : Event) : Handler unit :=
  match e with
  | ClaimTreasure poolId today => toggleStamp poolId today
  | Reset ok => resetClick ok
  | Up => btnUpClick
  | Down => btnDownClick
  | PrevStampsPage => prevStampsPageClick
  | NextStampsPage => nextStampsPageClick
  | ToggleView => toggleBtnClick
  end.

(** A session: each listener runs to completion before the next event. *)
Definition run (es : list Event) (s : App) : App :=
  fold_left (λ s e, exec (handle e) s) es s.

(** ** Vocabulary of the specification *)

(** A string of exactly [n] ASCII digits. *)
Definition digits (n : nat) (s : string) : Prop :=
  String.length s = n ∧ forallb Js.isDigit (list_ascii_of_string s) = true.

(** A string of ASCII digits, of any length. *)
Definition allDigits (s : string) : Prop :=
  forallb Js.isDigit (list_ascii_of_string s) = true.

(** The two date shapes: [YYYY-MM-DD] and [DD/MM/YYYY]. *)
Definition iso (Y M D : string) : string := Y +:+ "-" +:+ M +:+ "-" +:+ D.
Definition au (Y M D : string) : string := D +:+ "/" +:+ M +:+ "/" +:+ Y.

Definition isoShape (s : string) : Prop :=
  ∃ Y M D, digits 4 Y ∧ digits 2 M ∧ digits 2 D ∧ s = iso Y M D.
Definition auShape (s : string) : Prop :=
  ∃ Y M D, digits 4 Y ∧ digits 2 M ∧ digits 2 D ∧ s = au Y M D.

(** The number a digit string denotes. *)
Definition digitVal (c : ascii) : Z := Z.of_nat (nat_of_ascii c) - 48.

Fixpoint numeral (s : string) : Z :=
  match s with
  | EmptyString => 0
  | String c s' => digitVal c * 10 ^ Z.of_nat (String.length s') + numeral s'
  end.

(** Chronological comparison of (year, month, day). *)
Definition chrono (a b : Z * Z * Z) : comparison :=
  match a, b with
  | (y1, m1, d1), (y2, m2, d2) =>
      match y1 ?= y2 with
      | Eq => match m1 ?= m2 with
              | Eq => d1 ?= d2
              | c => c
              end
      | c => c
      end
  end.

(** [s] is the date [ymd] written in one of the two shapes. *)
Definition dated (s : string) (ymd : Z * Z * Z) : Prop :=
  ∃ Y M D, digits 4 Y ∧ digits 2 M ∧ digits 2 D ∧
           (s = iso Y M D ∨ s = au Y M D) ∧
           ymd = (numeral Y, numeral M, numeral D).

(** The elements of [l] at the positions [i] with [lo <= i < hi]. *)
Definition window {X} (l : list X) (lo hi : Z) : list X :=
  take (Z.to_nat hi - Z.to_nat lo)%nat (drop (Z.to_nat lo) l).

(** [visibleSlice(ledger, catalog, page, pageSize)] of the specification:
    the visited catalog entries in date-key order, cut to the window
    [page*pageSize, page*pageSize+pageSize). *)
Definition visibleSlice (ledger : Ledger) (catalog : list Pool)
    (page pageSize : Z) : list Pool :=
  window (visitedPools ledger catalog)
         (page * pageSize) (page * pageSize + pageSize).

(** [pageCount(ledger, pageSize)]: the number of pages of a state. *)
Definition pageCount (perPage : Z) (s : App) : Z :=
  totalPages (Z.of_nat (length (visitedPools (visited s) (pools s)))) perPage.

(** The invariant the specification asks of the pagination cursor. *)
Definition pageInRange (perPage : Z) (s : App) : Prop :=
  0 ≤ currentStampsPage s ≤ pageCount perPage s - 1.

(** What the specification says of the persisted selection:
    [setFromPersisted(raw, catalogLength)] treats a missing or out-of-range
    value as [0]. *)
Definition setFromPersisted (raw : option Z) (catalogLength : Z) : Z :=
  match raw with
  | Some i => if (0 <=? i) && (i <? catalogLength) then i else 0
  | None => 0
  end.

(** ** A session over a catalog of three *)

Definition poolA : Pool := mkPool "A" "Alpha Cove".
Definition poolB : Pool := mkPool "B" "Bravo Bay".
Definition poolC : Pool := mkPool "C" "Charlie Beach".
Definition catalogABC : list Pool := [poolA; poolB; poolC].

(** Nothing stored yet, catalog loaded. *)
Definition fresh : App :=
  exec (init catalogABC) (boot (mkStorage None None None)).

(** B is claimed on 2 January 2025, then A on 1 January (the device clock
    was set back), then C on 3 January. *)
Definition afterB : App := run [ClaimTreasure "B" "02/01/2025"] fresh.
Definition afterBA : App := run [ClaimTreasure "A" "01/01/2025"] afterB.
Definition afterBAC : App := run [ClaimTreasure "C" "03/01/2025"] afterBA.

(** ** Sessions *)

(** The state after the page has loaded with [st] in the store and
    [loaded] as the catalog, and the user has gone through [es]. *)
Definition session (st : Storage) (loaded : list Pool) (es : list Event)
  : App :=
  run es (exec (init loaded) (boot st)).

(** The selection cursor points into the catalog ([0] when the catalog
    is empty). *)
Definition selectionValid (s : App) : Prop :=
  0 ≤ selectedIndex s ≤ Z.max 0 (Z.of_nat (length (pools s)) - 1).

(** The cards [renderStamps] puts on the grid when it is entered with the
    cursor at [k]. *)
Definition cardsOn (perPage : Z) (s : App) (k : Z) : list Pool :=
  match fst (renderStampsAt perPage (exec (setCurrentStampsPage k) s)) with
  | Normal cards => cards
  | Thrown => []
  end.

(** * Properties *)

(** ** Date keys *)

Example dateKey_iso : dateKey "2025-01-05" = "20250105".
Proof. reflexivity. Qed.

Example dateKey_au : dateKey "06/01/2025" = "20250106".
Proof. reflexivity. Qed.

Example dateKey_other : dateKey "5 Jan 2025" = "52025".
Proof. reflexivity. Qed.

Lemma isDigit_range c :
  Js.isDigit c = true ↔ (48 ≤ nat_of_ascii c ≤ 57)%nat.
Proof.
  unfold Js.isDigit. rewrite andb_true_iff, !Nat.leb_le. tauto.
Qed.

Lemma isDigit_not_sep c sep :
  Js.isDigit c = true → Js.isDigit sep = false →
  Ascii.eqb sep c = false ∧ Ascii.eqb c sep = false.
Proof.
  intros Hc Hs. split; apply Ascii.eqb_neq; intros ->; congruence.
Qed.

Lemma digits_nil s : digits 0 s → s = "".
Proof. intros [Hl _]. destruct s; [done | discriminate]. Qed.

Lemma digits_cons n s :
  digits (S n) s →
  ∃ c s', s = String c s' ∧ Js.isDigit c = true ∧ digits n s'.
Proof.
  intros [Hl Hd]. destruct s as [|c s']; [discriminate |].
  simpl in *. apply andb_true_iff in Hd as [? ?].
  exists c, s'. repeat split; auto.
Qed.


(** Takes a [digits k s] hypothesis apart into its characters. *)
Ltac split_digits :=
  repeat match goal with
    | H : digits (S _) _ |- _ =>
        let c := fresh "c" in
        let Hc := fresh "Hc" in
        apply digits_cons in H as (c & ? & -> & Hc & H)
    | H : digits 0 _ |- _ => apply digits_nil in H as ->
    end.

Ltac sep_facts sep :=
  repeat match goal with
    | Hc : Js.isDigit ?c = true |- _ =>
        lazymatch goal with
        | _ : Ascii.eqb sep c = false |- _ => fail
        | _ => destruct (isDigit_not_sep c sep Hc eq_refl)
        end
    end.

(** Evaluates the string functions on characters known to be digits. *)
Ltac crunch :=
  repeat (cbv -[Ascii.eqb Js.isDigit];
          rewrite ?Ascii.eqb_refl;
          repeat match goal with
            | H : Js.isDigit _ = _ |- _ => rewrite H
            | H : Ascii.eqb _ _ = _ |- _ => rewrite H
            end).

Lemma dateKey_iso_shape Y M D :
  digits 4 Y → digits 2 M → digits 2 D → dateKey (iso Y M D) = Y +:+ M +:+ D.
Proof.
  intros HY HM HD. split_digits. sep_facts "-"%char.
  unfold dateKey, iso. cbv [String.append]. crunch. reflexivity.
Qed.

Lemma dateKey_au_shape Y M D :
  digits 4 Y → digits 2 M → digits 2 D → dateKey (au Y M D) = Y +:+ M +:+ D.
Proof.
  intros HY HM HD. split_digits. sep_facts "-"%char. sep_facts "/"%char.
  unfold dateKey, au. cbv [String.append]. crunch. reflexivity.
Qed.

(** The regular expressions accept exactly the two shapes. *)
Ltac peel_test H :=
  cbn -[Ascii.eqb Js.isDigit] in H; try discriminate H;
  repeat match type of H with
    | (_ && _) = true =>
        let Hc := fresh "Hc" in apply andb_true_iff in H as [Hc H]
    end;
  repeat match goal with
    | H : Ascii.eqb _ _ = true |- _ => apply Ascii.eqb_eq in H; subst
    end;
  try discriminate.

Ltac ten_chars s :=
  destruct s as
    [|c1 [|c2 [|c3 [|c4 [|c5 [|c6 [|c7 [|c8 [|c9 [|c10 [|c11 s]]]]]]]]]]].

Lemma digits_of_list (cs : list ascii) :
  forallb Js.isDigit cs = true →
  digits (length cs) (string_of_list_ascii cs).
Proof.
  intros H. split.
  - induction cs; simpl; [done | f_equal; apply IHcs].
    simpl in H. by apply andb_true_iff in H as [_ ?].
  - by rewrite list_ascii_of_string_of_list_ascii.
Qed.

Lemma test_reISO s : Js.test reISO s = true ↔ isoShape s.
Proof.
  split.
  - intros H. unfold reISO in H. ten_chars s; peel_test H.
    exists (string_of_list_ascii [c1; c2; c3; c4]),
           (string_of_list_ascii [c6; c7]), (string_of_list_ascii [c9; c10]).
    repeat split; simpl; crunch; done.
  - intros (Y & M & D & HY & HM & HD & ->). split_digits.
    unfold iso. cbv [String.append]. crunch. reflexivity.
Qed.

Lemma test_reAU s : Js.test reAU s = true ↔ auShape s.
Proof.
  split.
  - intros H. unfold reAU in H. ten_chars s; peel_test H.
    exists (string_of_list_ascii [c7; c8; c9; c10]),
           (string_of_list_ascii [c4; c5]), (string_of_list_ascii [c1; c2]).
    repeat split; simpl; crunch; done.
  - intros (Y & M & D & HY & HM & HD & ->). split_digits.
    unfold au. cbv [String.append]. crunch. reflexivity.
Qed.

Lemma dateKey_fallback s :
  ¬ isoShape s → ¬ auShape s →
  dateKey s = Js.removeAll (λ c, negb (Js.isDigit c)) s.
Proof.
  intros Hi Ha. unfold dateKey.
  destruct (String.eqb_spec s "") as [-> | _]; [done |].
  destruct (Js.test reISO s) eqn:Ei; [by apply test_reISO in Ei |].
  destruct (Js.test reAU s) eqn:Ea; [by apply test_reAU in Ea |].
  done.
Qed.

Lemma allDigits_app a b : allDigits a → allDigits b → allDigits (a +:+ b).
Proof.
  unfold allDigits. induction a as [|c a IH]; simpl; [done |].
  rewrite !andb_true_iff. intros [? ?] ?. auto.
Qed.

Lemma removeAll_nondigits s :
  allDigits (Js.removeAll (λ c, negb (Js.isDigit c)) s).
Proof.
  unfold allDigits. induction s as [|c s IH]; simpl; [done |].
  destruct (Js.isDigit c) eqn:E; simpl; [by rewrite E | done].
Qed.

(** Every date key is a string of ASCII digits: the strings handed to
    [localeCompare] are within the range where it is the code-unit
    order. *)
Lemma dateKey_digits d : allDigits (dateKey d).
Proof.
  destruct (Js.test reISO d) eqn:Ei.
  { apply test_reISO in Ei as (Y & M & D & HY & HM & HD & ->).
    rewrite dateKey_iso_shape by done.
    destruct HY, HM, HD. by repeat apply allDigits_app. }
  destruct (Js.test reAU d) eqn:Ea.
  { apply test_reAU in Ea as (Y & M & D & HY & HM & HD & ->).
    rewrite dateKey_au_shape by done.
    destruct HY, HM, HD. by repeat apply allDigits_app. }
  rewrite dateKey_fallback; [apply removeAll_nondigits | |].
  - intros H. apply test_reISO in H. congruence.
  - intros H. apply test_reAU in H. congruence.
Qed.

(** Code-unit order on digit strings of one length is numeric order. *)
Lemma digitVal_range c : Js.isDigit c = true → 0 ≤ digitVal c ≤ 9.
Proof. rewrite isDigit_range. unfold digitVal. lia. Qed.

Lemma ascii_compare_digitVal c c' :
  Ascii.compare c c' = (digitVal c ?= digitVal c').
Proof.
  unfold Ascii.compare, digitVal, nat_of_ascii.
  rewrite !N_nat_Z, <- N2Z.inj_compare.
  destruct (Z.compare_spec (Z.of_N (N_of_ascii c)) (Z.of_N (N_of_ascii c')));
    symmetry; [apply Z.compare_eq_iff | apply Z.compare_lt_iff
              | apply Z.compare_gt_iff]; lia.
Qed.

Lemma numeral_bound s :
  allDigits s → 0 ≤ numeral s < 10 ^ Z.of_nat (String.length s).
Proof.
  unfold allDigits. induction s as [|c s IH]; simpl String.length; simpl.
  - lia.
  - rewrite andb_true_iff. intros [Hc Hs].
    specialize (IH Hs). apply digitVal_range in Hc.
    rewrite Nat2Z.inj_succ, Z.pow_succ_r by lia. nia.
Qed.

Lemma compare_numeral a : ∀ b,
  allDigits a → allDigits b → String.length a = String.length b →
  String.compare a b = (numeral a ?= numeral b).
Proof.
  induction a as [|c a IH]; intros [|c' b] Ha Hb Hl; try discriminate.
  - reflexivity.
  - injection Hl as Hl. unfold allDigits in Ha, Hb. simpl in Ha, Hb.
    apply andb_true_iff in Ha as [Hc Ha], Hb as [Hc' Hb].
    pose proof (numeral_bound a Ha) as Ba.
    pose proof (numeral_bound b Hb) as Bb.
    apply digitVal_range in Hc, Hc'.
    simpl. rewrite ascii_compare_digitVal, (IH b Ha Hb Hl), <- Hl.
    rewrite <- Hl in Bb.
    set (p := 10 ^ Z.of_nat (String.length a)) in *.
    destruct (Z.compare_spec (digitVal c) (digitVal c')) as [E | L | G].
    + rewrite E. symmetry. apply Z.add_compare_mono_l.
    + symmetry. apply Z.compare_lt_iff. nia.
    + symmetry. apply Z.compare_gt_iff. nia.
Qed.

Lemma compare_app a : ∀ a' b b',
  String.length a = String.length a' →
  String.compare (a +:+ b) (a' +:+ b') =
  match String.compare a a' with
  | Eq => String.compare b b'
  | c => c
  end.
Proof.
  induction a as [|c a IH]; intros [|c' a'] b b' Hl; try discriminate.
  - reflexivity.
  - injection Hl as Hl. simpl. destruct (Ascii.compare c c'); auto.
Qed.

Lemma key_order_ymd Y M D Y' M' D' :
  digits 4 Y → digits 2 M → digits 2 D →
  digits 4 Y' → digits 2 M' → digits 2 D' →
  Js.localeCompare (Y +:+ M +:+ D) (Y' +:+ M' +:+ D') =
  chrono (numeral Y, numeral M, numeral D) (numeral Y', numeral M', numeral D').
Proof.
  intros [LY AY] [LM AM] [LD AD] [LY' AY'] [LM' AM'] [LD' AD'].
  unfold Js.localeCompare, chrono.
  rewrite !compare_app, !compare_numeral by (done || congruence).
  reflexivity.
Qed.

Lemma dated_key s ymd :
  dated s ymd →
  ∃ Y M D, digits 4 Y ∧ digits 2 M ∧ digits 2 D ∧
           dateKey s = Y +:+ M +:+ D ∧
           ymd = (numeral Y, numeral M, numeral D).
Proof.
  intros (Y & M & D & HY & HM & HD & [-> | ->] & ->); exists Y, M, D;
    (split; [| split; [| split; [| split]]]); trivial;
    [by apply dateKey_iso_shape | by apply dateKey_au_shape].
Qed.

(** Comparing date keys compares the dates, whatever shape each has. *)
Lemma dateKey_chronological s1 s2 t1 t2 :
  dated s1 t1 → dated s2 t2 →
  Js.localeCompare (dateKey s1) (dateKey s2) = chrono t1 t2.
Proof.
  intros (Y & M & D & HY & HM & HD & -> & ->)%dated_key
         (Y' & M' & D' & HY' & HM' & HD' & -> & ->)%dated_key.
  by apply key_order_ymd.
Qed.

(** C2. [dateKey] maps a string of the shape YYYY-MM-DD and a string of the
    shape DD/MM/YYYY to the eight digits YYYYMMDD, and any other string to
    what is left of it once every non-digit character is removed.
    Consequently the comparison of two keys, as the sort performs it, is
    the chronological comparison of the two dates whichever of the two
    shapes each is written in; for instance the keys of 2025-01-05,
    06/01/2025 and 07/01/2025 are in increasing order. *)
Theorem dateKey_normalizes :
  (∀ Y M D, digits 4 Y → digits 2 M → digits 2 D →
     dateKey (iso Y M D) = Y +:+ M +:+ D ∧
     dateKey (au Y M D) = Y +:+ M +:+ D) ∧
  (∀ s, ¬ isoShape s → ¬ auShape s →
     dateKey s = Js.removeAll (λ c, negb (Js.isDigit c)) s) ∧
  (∀ s1 s2 t1 t2, dated s1 t1 → dated s2 t2 →
     Js.localeCompare (dateKey s1) (dateKey s2) = chrono t1 t2) ∧
  (Js.localeCompare (dateKey "2025-01-05") (dateKey "06/01/2025") = Lt ∧
   Js.localeCompare (dateKey "06/01/2025") (dateKey "07/01/2025") = Lt).
Proof.
  split; [| split; [| split]].
  - intros Y M D HY HM HD.
    split; [by apply dateKey_iso_shape | by apply dateKey_au_shape].
  - apply dateKey_fallback.
  - apply dateKey_chronological.
  - split; reflexivity.
Qed.

Lemma digits_2025 : digits 4 "2025".
Proof. split; reflexivity. Defined.

Lemma digits_01 : digits 2 "01".
Proof. split; reflexivity. Defined.

Lemma digits_05 : digits 2 "05".
Proof. split; reflexivity. Defined.


Lemma not_a_date : ¬ isoShape "5 Jan 2025" ∧ ¬ auShape "5 Jan 2025".
Proof.
  split; intros H; [apply test_reISO in H | apply test_reAU in H];
    discriminate H.
Defined.

Lemma dateKey_normalizes_witness :
  (dateKey "2025-01-05" = "20250105" ∧ dateKey "05/01/2025" = "20250105") ∧
  dateKey "5 Jan 2025" = "52025" ∧
  Js.localeCompare (dateKey "2025-01-05") (dateKey "06/01/2025") =
    chrono (2025, 1, 5) (2025, 1, 6).
Proof.
  destruct dateKey_normalizes as (Hshape & Hother & Hchrono & _).
  split; [| split].
  - apply (Hshape "2025" "01" "05");
      [apply digits_2025 | apply digits_01 | apply digits_05].
  - apply (Hother "5 Jan 2025"); apply not_a_date.
  - apply (Hchrono "2025-01-05" "06/01/2025" (2025, 1, 5) (2025, 1, 6)).
    + exists "2025", "01", "05".
      repeat split; try reflexivity. left; reflexivity.
    + exists "2025", "01", "06".
      repeat split; try reflexivity. right; reflexivity.
Defined.

(** ** Handlers, step by step *)

Ltac unfold_handlers :=
  unfold handle, toggleStamp, resetClick, btnUpClick, btnDownClick,
    prevStampsPageClick, nextStampsPageClick, toggleBtnClick, init, setView,
    renderStamps, renderStampsAt, renderList, panToSelected, updateCount,
    writeVisited, writeSelection, writeStampsPage, showTreasureOverlay,
    setPools, setVisited, setSelectedIndex, setCurrentStampsPage,
    setOnStampsView, setStorage, exec, get, modify, throw,
    mbind, mret, Handler_bind, Handler_ret.

Ltac eval_handler :=
  cbn -[visitedPools totalPages Js.slice Js.index completionReached
        isVisited Z.min Z.max Z.rem Z.of_nat Z.mul Z.add Z.sub String.eqb
        Z.ltb Z.geb] in *.

Ltac step_handler :=
  unfold_handlers; eval_handler;
  repeat (case_match; eval_handler; simplify_eq; eval_handler).

Lemma toggleStamp_visited s poolId today :
  isVisited (visited s) poolId = true →
  toggleStamp poolId today s = (Normal tt, s).
Proof. intros H. step_handler; congruence. Qed.


Lemma run_cons e es s : run (e :: es) s = run es (exec (handle e) s).
Proof. reflexivity. Qed.


Lemma find_absent poolId (ps : list Pool) :
  (∀ p, p ∈ ps → id p ≠ poolId) →
  find (λ x, String.eqb (id x) poolId) ps = None.
Proof.
  intros H. induction ps as [|p ps IH]; simpl; [done |].
  destruct (String.eqb_spec (id p) poolId) as [E | _].
  - exfalso. by apply (H p); [left |].
  - apply IH. intros q Hq. apply H. by right.
Qed.

Lemma find_present poolId (ps : list Pool) p :
  find (λ x, String.eqb (id x) poolId) ps = Some p → p ∈ ps ∧ id p = poolId.
Proof.
  intros H. apply find_some in H as [Hin He].
  split; [by apply list_elem_of_In | by apply String.eqb_eq].
Qed.

Lemma find_exists poolId (ps : list Pool) :
  (∃ p, p ∈ ps ∧ id p = poolId) →
  ∃ p, find (λ x, String.eqb (id x) poolId) ps = Some p.
Proof.
  intros (p & Hin & Hid).
  destruct (find (λ x, String.eqb (id x) poolId) ps) as [q |] eqn:Hf; [eauto |].
  apply list_elem_of_In in Hin.
  apply (find_none _ _ Hf) in Hin. apply String.eqb_neq in Hin. done.
Qed.

(** A claim that goes through: one ledger write, persisted at once. *)
Lemma toggleStamp_claim s poolId today :
  poolId ≠ "" → isVisited (visited s) poolId = false →
  (∃ p, p ∈ pools s ∧ id p = poolId) →
  let s' := exec (toggleStamp poolId today) s in
  visited s' = <[poolId := mkVisit true today]> (visited s) ∧
  savedVisited (storage s') = Some (visited s') ∧
  pools s' = pools s ∧ selectedIndex s' = selectedIndex s ∧
  savedSelection (storage s') = savedSelection (storage s).
Proof.
  intros He Hv [p Hf]%find_exists. apply String.eqb_neq in He.
  repeat split; step_handler; congruence.
Qed.

(** What a call of [toggleStamp] does, in full: nothing at all, or the one
    ledger write followed by the renders. *)
Lemma toggleStamp_effect s poolId today :
  toggleStamp poolId today s = (Normal tt, s) ∨
  (poolId ≠ "" ∧ isVisited (visited s) poolId = false ∧
   (∃ p, p ∈ pools s ∧ id p = poolId) ∧
   let s' := exec (toggleStamp poolId today) s in
   visited s' = <[poolId := mkVisit true today]> (visited s) ∧
   savedVisited (storage s') = Some (visited s') ∧
   pools s' = pools s ∧ selectedIndex s' = selectedIndex s ∧
   savedSelection (storage s') = savedSelection (storage s)).
Proof.
  destruct (String.eqb poolId "") eqn:He; [left; step_handler; congruence |].
  destruct (isVisited (visited s) poolId) eqn:Hv;
    [left; by apply toggleStamp_visited |].
  destruct (find (λ x, String.eqb (id x) poolId) (pools s)) as [p |] eqn:Hf.
  - right. destruct (find_present _ _ _ Hf) as [Hin Hid].
    apply String.eqb_neq in He.
    split; [done |]. split; [done |]. split; [eauto |].
    apply toggleStamp_claim; eauto.
  - left. step_handler; congruence.
Qed.

(** The handlers never touch the catalog. *)
Lemma handle_pools e s : pools (exec (handle e) s) = pools s.
Proof. destruct e; step_handler; auto. Qed.

(** No handler but a confirmed reset removes or rewrites a record that is
    done. *)
Lemma handle_keeps_record e s i :
  e ≠ Reset true → isVisited (visited s) i = true →
  visited (exec (handle e) s) !! i = visited s !! i.
Proof.
  intros He Hv. destruct e as [poolId today | [|] | | | | |];
    try congruence; try (step_handler; auto; fail).
  change (handle (ClaimTreasure poolId today)) with (toggleStamp poolId today).
  destruct (toggleStamp_effect s poolId today) as [E | (_ & Hn & _ & Hs & _)].
  - unfold exec. by rewrite E.
  - cbv zeta in Hs. rewrite Hs. apply lookup_insert_ne. congruence.
Qed.

Lemma run_keeps_record es : ∀ s i,
  Forall (λ e, e ≠ Reset true) es → isVisited (visited s) i = true →
  visited (run es s) !! i = visited s !! i.
Proof.
  induction es as [|e es IH]; intros s i Hes Hv; [done |].
  apply Forall_cons in Hes as [He Hes]. rewrite run_cons.
  pose proof (handle_keeps_record e s i He Hv) as Hk.
  rewrite IH, Hk; auto. unfold isVisited in *. by rewrite Hk.
Qed.

(** ** Visit ledger *)

(** C1. Once a pool id has a record that is done, claiming it again, any
    number of times, does nothing: every such call returns normally and
    leaves the whole state (ledger, store, cursors) as it was.  The record
    stays as it is, and [isVisited] stays true, through every sequence of
    operations that contains no confirmed reset. *)
Theorem toggleStamp_idempotent (s : App) (poolId : string) :
  isVisited (visited s) poolId = true →
  (∀ today, toggleStamp poolId today s = (Normal tt, s)) ∧
  (∀ todays, run (map (ClaimTreasure poolId) todays) s = s) ∧
  (∀ es, Forall (λ e, e ≠ Reset true) es →
         visited (run es s) !! poolId = visited s !! poolId ∧
         isVisited (visited (run es s)) poolId = true).
Proof.
  intros Hv. split; [| split].
  - intros today. by apply toggleStamp_visited.
  - intros todays. induction todays as [|t ts IH]; [done |].
    simpl map. rewrite run_cons.
    change (handle (ClaimTreasure poolId t)) with (toggleStamp poolId t).
    unfold exec. by rewrite toggleStamp_visited.
  - intros es Hes. pose proof (run_keeps_record es s poolId Hes Hv) as Hk.
    split; [done |]. unfold isVisited in *. by rewrite Hk.
Qed.

Lemma toggleStamp_idempotent_witness :
  isVisited (visited afterB) "B" = true ∧
  toggleStamp "B" "09/09/2025" afterB = (Normal tt, afterB).
Proof.
  split; [reflexivity |].
  apply (toggleStamp_idempotent afterB "B"). reflexivity.
Defined.

(** C9. Claiming an id that no catalog entry carries is a no-op and not an
    exception: the call completes normally and the whole state is as
    before, so the ledger has no new and no changed entry and the store was
    not written. *)
Theorem toggleStamp_unknown_id (s : App) (poolId today : string) :
  (∀ p, p ∈ pools s → id p ≠ poolId) →
  toggleStamp poolId today s = (Normal tt, s).
Proof.
  intros Hno. apply find_absent in Hno.
  step_handler; congruence.
Qed.

Lemma toggleStamp_unknown_id_witness :
  toggleStamp "Z" "02/01/2025" afterB = (Normal tt, afterB).
Proof.
  apply toggleStamp_unknown_id. intros p Hp.
  apply list_elem_of_In in Hp. simpl in Hp.
  destruct Hp as [<- | [<- | [<- | []]]]; discriminate.
Defined.

(** C10. A call of [toggleStamp] for id [x] leaves the ledger entry of
    every other id as it was, and leaves the selection cursor (variable and
    stored value) as it was; when the claim goes through, the entry of [x]
    is the new record and the stored ledger is the new ledger. *)
Theorem toggleStamp_frame (s : App) (x today : string) :
  let s' := exec (toggleStamp x today) s in
  (∀ y, y ≠ x → visited s' !! y = visited s !! y) ∧
  selectedIndex s' = selectedIndex s ∧
  savedSelection (storage s') = savedSelection (storage s) ∧
  (x ≠ "" → isVisited (visited s) x = false →
   (∃ p, p ∈ pools s ∧ id p = x) →
   visited s' !! x = Some (mkVisit true today) ∧
   savedVisited (storage s') = Some (visited s')).
Proof.
  intros s'. subst s'.
  split; [| split; [| split]].
  - intros y Hy.
    destruct (toggleStamp_effect s x today) as [E | (_ & _ & _ & Hv & _)].
    + unfold exec. by rewrite E.
    + cbv zeta in Hv. rewrite Hv. by apply lookup_insert_ne.
  - destruct (toggleStamp_effect s x today)
      as [E | (_ & _ & _ & _ & _ & _ & Hsel & _)]; [| done].
    unfold exec. by rewrite E.
  - destruct (toggleStamp_effect s x today)
      as [E | (_ & _ & _ & _ & _ & _ & _ & Hst)]; [| done].
    unfold exec. by rewrite E.
  - intros Hne Hv Hp.
    destruct (toggleStamp_claim s x today Hne Hv Hp) as (Hv' & Hs' & _).
    split; [| done]. rewrite Hv'. apply lookup_insert_eq.
Qed.

Lemma toggleStamp_frame_witness :
  visited (exec (toggleStamp "A" "01/01/2025") afterB) !! "B" =
    visited afterB !! "B" ∧
  visited (exec (toggleStamp "A" "01/01/2025") afterB) !! "A" =
    Some (mkVisit true "01/01/2025").
Proof.
  destruct (toggleStamp_frame afterB "A" "01/01/2025") as (Hy & _ & _ & Hx).
  split.
  - apply Hy. discriminate.
  - apply Hx; [discriminate | reflexivity |].
    exists poolA. split; [| reflexivity]. apply list_elem_of_In. left.
    reflexivity.
Defined.

(** ** Selection cursor *)

(** Turns the boolean comparisons in the context into inequalities. *)
Ltac zbool :=
  repeat match goal with
    | H : (_ <? _) = true |- _ => apply Z.ltb_lt in H
    | H : (_ <? _) = false |- _ => apply Z.ltb_ge in H
    | H : (_ >=? _) = true |- _ => rewrite Z.geb_leb in H; apply Z.leb_le in H
    | H : (_ >=? _) = false |- _ => rewrite Z.geb_leb in H; apply Z.leb_gt in H
    | H : (_ <=? _) = true |- _ => apply Z.leb_le in H
    | H : (_ <=? _) = false |- _ => apply Z.leb_gt in H
    end.

Lemma length_pos_nonempty {X} (l : list X) : l ≠ [] ↔ 0 < Z.of_nat (length l).
Proof. destruct l; simpl; split; (done || lia). Qed.

Lemma btnUpClick_effect s :
  pools s ≠ [] →
  let s' := exec btnUpClick s in
  selectedIndex s' =
    Z.rem (selectedIndex s + 1) (Z.of_nat (length (pools s))) ∧
  savedSelection (storage s') = Some (selectedIndex s') ∧
  pools s' = pools s.
Proof. intros Hne. repeat split; step_handler; congruence. Qed.

Lemma btnDownClick_effect s :
  pools s ≠ [] →
  let s' := exec btnDownClick s in
  selectedIndex s' =
    Z.rem (selectedIndex s - 1 + Z.of_nat (length (pools s)))
          (Z.of_nat (length (pools s))) ∧
  savedSelection (storage s') = Some (selectedIndex s') ∧
  pools s' = pools s.
Proof. intros Hne. repeat split; step_handler; congruence. Qed.

Lemma run_Up k : ∀ s,
  0 ≤ selectedIndex s < Z.of_nat (length (pools s)) →
  selectedIndex (run (replicate k Up) s) =
    (selectedIndex s + Z.of_nat k) mod Z.of_nat (length (pools s)).
Proof.
  induction k as [|k IH]; intros s Hs.
  - simpl. rewrite Z.add_0_r, Z.mod_small; lia.
  - simpl replicate. rewrite run_cons.
    assert (pools s ≠ []) as Hne by (apply length_pos_nonempty; lia).
    destruct (btnUpClick_effect s Hne) as (Hi & _ & Hp). cbv zeta in *.
    change (handle Up) with btnUpClick.
    rewrite Z.rem_mod_nonneg in Hi by lia.
    rewrite IH; rewrite Hp, Hi.
    + rewrite Zplus_mod_idemp_l. f_equal. lia.
    + apply Z.mod_pos_bound. lia.
Qed.

Lemma run_Down k : ∀ s,
  0 ≤ selectedIndex s < Z.of_nat (length (pools s)) →
  selectedIndex (run (replicate k Down) s) =
    (selectedIndex s - Z.of_nat k) mod Z.of_nat (length (pools s)).
Proof.
  induction k as [|k IH]; intros s Hs.
  - simpl. rewrite Z.sub_0_r, Z.mod_small; lia.
  - simpl replicate. rewrite run_cons.
    assert (pools s ≠ []) as Hne by (apply length_pos_nonempty; lia).
    destruct (btnDownClick_effect s Hne) as (Hi & _ & Hp). cbv zeta in *.
    change (handle Down) with btnDownClick.
    rewrite Z.rem_mod_nonneg in Hi by lia.
    rewrite IH; rewrite Hp, Hi.
    + rewrite Zminus_mod_idemp_l.
      replace (selectedIndex s - 1 + Z.of_nat (length (pools s))
               - Z.of_nat k)
        with (selectedIndex s - Z.of_nat (S k)
              + 1 * Z.of_nat (length (pools s))) by lia.
      apply Z_mod_plus_full.
    + apply Z.mod_pos_bound. lia.
Qed.

(** C5. With a catalog of [N > 0] pools and the selection at [i] in
    [0, N-1], the up button moves it to [(i+1) mod N] and the down button
    to [(i-1+N) mod N], each storing the new index; [N] presses of either
    button bring the selection back to [i].  With an empty catalog both
    buttons do nothing, and the index, which [init] has set to [0], stays
    [0]. *)
Theorem selection_wraparound (s : App) :
  let N := Z.of_nat (length (pools s)) in
  (0 ≤ selectedIndex s < N →
   selectedIndex (exec btnUpClick s) = (selectedIndex s + 1) mod N ∧
   savedSelection (storage (exec btnUpClick s)) =
     Some ((selectedIndex s + 1) mod N) ∧
   selectedIndex (exec btnDownClick s) = (selectedIndex s - 1 + N) mod N ∧
   savedSelection (storage (exec btnDownClick s)) =
     Some ((selectedIndex s - 1 + N) mod N) ∧
   selectedIndex (run (replicate (length (pools s)) Up) s) = selectedIndex s ∧
   selectedIndex (run (replicate (length (pools s)) Down) s) =
     selectedIndex s) ∧
  (pools s = [] →
   btnUpClick s = (Normal tt, s) ∧ btnDownClick s = (Normal tt, s)) ∧
  (∀ st, selectedIndex (exec (init []) (boot st)) = 0).
Proof.
  intros N. split; [| split].
  - intros Hs.
    assert (pools s ≠ []) as Hne by (apply length_pos_nonempty; lia).
    destruct (btnUpClick_effect s Hne) as (Hu & Hus & _).
    destruct (btnDownClick_effect s Hne) as (Hd & Hds & _).
    cbv zeta in *. fold N in Hu, Hd.
    rewrite Z.rem_mod_nonneg in Hu, Hd by lia.
    rewrite Hus, Hds, Hu, Hd, run_Up, run_Down by done. fold N.
    repeat split.
    + replace (selectedIndex s + N) with (selectedIndex s + 1 * N) by lia.
      rewrite Z_mod_plus_full. apply Z.mod_small. lia.
    + replace (selectedIndex s - N) with (selectedIndex s + (-1) * N) by lia.
      rewrite Z_mod_plus_full. apply Z.mod_small. lia.
  - intros He. split; step_handler; congruence.
  - intros st. step_handler; zbool; simpl in *; lia.
Qed.

Lemma selection_wraparound_witness :
  let s := run [Up; Up] fresh in
  selectedIndex (exec btnUpClick s) =
    (selectedIndex s + 1) mod Z.of_nat (length (pools s)) ∧
  selectedIndex (run (replicate (length (pools s)) Down) s) = selectedIndex s.
Proof.
  intros s. destruct (selection_wraparound s) as [H _].
  destruct H as (Hup & _ & _ & _ & _ & Hdown).
  - vm_compute. split; [discriminate | reflexivity].
  - split; [exact Hup | exact Hdown].
Defined.

Lemma init_selectedIndex loaded s :
  selectedIndex (exec (init loaded) s) =
    let N := Z.of_nat (length loaded) in
    let i := if selectedIndex s <? 0 then 0 else selectedIndex s in
    if i >=? N then Z.max 0 (N - 1) else i.
Proof. step_handler; zbool; lia. Qed.

(** C8, as the specification words it, fails: a persisted index at or
    beyond the catalog length is not treated as [0].  With three pools and
    a stored index of 5, [init] selects the last pool, index 2. *)
Lemma init_selection_not_zero :
  selectedIndex (exec (init catalogABC) (boot (mkStorage None (Some 5) None)))
  = 2 ∧
  setFromPersisted (Some 5) (Z.of_nat (length catalogABC)) = 0 ∧
  selectedIndex (exec (init catalogABC) (boot (mkStorage None (Some 5) None)))
  ≠ setFromPersisted (Some 5) (Z.of_nat (length catalogABC)).
Proof. repeat split. discriminate. Qed.

(** C8, amended. At startup a missing or negative persisted selection
    index becomes [0]; an index at or beyond the catalog length becomes the
    last index, [length - 1] ([0] for an empty catalog); an index in range
    is kept.  The resulting selection lies in [0, length-1] for a non-empty
    catalog and is [0] for an empty one. *)
Theorem init_selection_in_bounds (st : Storage) (loaded : list Pool) :
  let N := Z.of_nat (length loaded) in
  let raw := readSelection st in
  let i := selectedIndex (exec (init loaded) (boot st)) in
  (savedSelection st = None → i = 0) ∧
  (raw < 0 → i = 0) ∧
  (N ≤ raw → i = Z.max 0 (N - 1)) ∧
  (0 ≤ raw < N → i = raw) ∧
  (0 < N → 0 ≤ i < N) ∧
  (N = 0 → i = 0).
Proof.
  intros N raw i. subst i. rewrite init_selectedIndex.
  change (selectedIndex (boot st)) with raw. fold N. cbv zeta.
  assert (savedSelection st = None → raw = 0) as Hmissing.
  { intros H. subst raw. unfold readSelection. by rewrite H. }
  assert (0 ≤ N) by lia.
  rewrite Z.geb_leb.
  destruct (Z.ltb_spec raw 0) as [Hneg | Hnn];
    [destruct (Z.leb_spec N 0) | destruct (Z.leb_spec N raw)];
    repeat split; try intros ?%Hmissing; intros; lia.
Qed.

Lemma init_selection_in_bounds_witness :
  selectedIndex
    (exec (init catalogABC) (boot (mkStorage None (Some (-4)) None))) = 0 ∧
  selectedIndex
    (exec (init catalogABC) (boot (mkStorage None (Some 5) None))) =
    Z.max 0 (3 - 1) ∧
  selectedIndex (exec (init catalogABC) (boot (mkStorage None None None))) = 0.
Proof.
  split; [| split].
  - destruct (init_selection_in_bounds (mkStorage None (Some (-4)) None)
                catalogABC) as (_ & Hneg & _).
    apply Hneg. reflexivity.
  - destruct (init_selection_in_bounds (mkStorage None (Some 5) None)
                catalogABC) as (_ & _ & Hge & _).
    apply Hge. discriminate.
  - destruct (init_selection_in_bounds (mkStorage None None None)
                catalogABC) as (Hmissing & _).
    apply Hmissing. reflexivity.
Defined.

(** ** Stamp pagination *)

(** [Js.ceilDiv a b] is the least [k] with [a <= k * b]. *)
Lemma ceilDiv_spec a b :
  0 < b → (Js.ceilDiv a b - 1) * b < a ≤ Js.ceilDiv a b * b.
Proof.
  intros Hb. unfold Js.ceilDiv.
  pose proof (Z.mul_div_le (- a) b Hb).
  pose proof (Z.mul_succ_div_gt (- a) b Hb). nia.
Qed.

Lemma ceilDiv_0 b : 0 < b → Js.ceilDiv 0 b = 0.
Proof. intros Hb. unfold Js.ceilDiv. simpl. by rewrite Z.div_0_l by lia. Qed.

Lemma totalPages_pos n perPage : 1 ≤ totalPages n perPage.
Proof. unfold totalPages. lia. Qed.

Lemma totalPages_0 perPage : 0 < perPage → totalPages 0 perPage = 1.
Proof. intros Hb. unfold totalPages. rewrite ceilDiv_0; lia. Qed.

(** [totalPages] is the least number of pages, at least one, that holds
    [n] entries. *)
Lemma totalPages_spec n perPage :
  0 < perPage → 0 ≤ n →
  n ≤ totalPages n perPage * perPage ∧
  (1 < totalPages n perPage → (totalPages n perPage - 1) * perPage < n).
Proof.
  intros Hb Hn. unfold totalPages.
  pose proof (ceilDiv_spec n perPage Hb). split; nia.
Qed.

Lemma insertBy_perm {X} (cmp : X → X → comparison) x l :
  Permutation (Js.insertBy cmp x l) (x :: l).
Proof.
  induction l as [|y l IH]; simpl; [done |].
  destruct (cmp x y); try done.
  rewrite IH. apply perm_swap.
Qed.

Lemma sort_perm {X} (cmp : X → X → comparison) l :
  Permutation (Js.sort cmp l) l.
Proof.
  induction l as [|x l IH]; simpl; [done |].
  rewrite insertBy_perm. by constructor.
Qed.


Section Sorting.
Context {X : Type} (cmp : X → X → comparison).
Hypothesis cmp_total : ∀ x y, cmp x y = Gt → cmp y x ≠ Gt.

Lemma insertBy_hd x y l :
  cmp y x ≠ Gt →
  HdRel (λ a b, cmp a b ≠ Gt) y l →
  HdRel (λ a b, cmp a b ≠ Gt) y (Js.insertBy cmp x l).
Proof.
  intros Hyx Hl. destruct l as [|z l]; simpl; [by constructor |].
  apply HdRel_inv in Hl. destruct (cmp x z); by constructor.
Qed.

Lemma insertBy_sorted x l :
  Sorted (λ a b, cmp a b ≠ Gt) l →
  Sorted (λ a b, cmp a b ≠ Gt) (Js.insertBy cmp x l).
Proof.
  induction 1 as [|y l Hs IH Hhd]; simpl.
  - repeat constructor.
  - destruct (cmp x y) eqn:E.
    + repeat constructor; auto. congruence.
    + repeat constructor; auto. congruence.
    + constructor; [done |]. apply insertBy_hd; [| done].
      by apply cmp_total.
Qed.

Lemma sort_sorted l : Sorted (λ a b, cmp a b ≠ Gt) (Js.sort cmp l).
Proof.
  induction l as [|x l IH]; simpl; [constructor |].
  by apply insertBy_sorted.
Qed.
End Sorting.

Lemma byDateKey_total v a b : byDateKey v a b = Gt → byDateKey v b a ≠ Gt.
Proof.
  unfold byDateKey, Js.localeCompare. intros H.
  rewrite String.compare_antisym, H. discriminate.
Qed.

(** The list [renderStamps] pages through: exactly the catalog entries
    whose record is done, each as often as the catalog has it, with date
    keys in non-decreasing order. *)
Lemma visitedPools_perm v ps :
  Permutation (visitedPools v ps) (List.filter (λ p, isVisited v (id p)) ps).
Proof. apply sort_perm. Qed.

Lemma visitedPools_sorted v ps :
  Sorted (λ a b, byDateKey v a b ≠ Gt) (visitedPools v ps).
Proof. apply sort_sorted, byDateKey_total. Qed.


Lemma isVisited_empty i : isVisited ∅ i = false.
Proof. unfold isVisited. by rewrite lookup_empty. Qed.

Lemma visitedPools_empty ps : visitedPools ∅ ps = [].
Proof.
  unfold visitedPools.
  replace (List.filter (λ p, isVisited ∅ (id p)) ps) with (@nil Pool); [done |].
  induction ps as [|p ps IH]; simpl; [done |]. by rewrite isVisited_empty.
Qed.

Lemma countVisited_empty : countVisited ∅ = 0.
Proof. unfold countVisited. by rewrite map_filter_empty, map_size_empty. Qed.

(** What [renderStamps] does: clamp from above, store, cut the page. *)
Lemma renderStampsAt_effect perPage s :
  let T := pageCount perPage s in
  let page := Z.min (currentStampsPage s) (T - 1) in
  ∃ s', renderStampsAt perPage s =
          (Normal (Js.slice (visitedPools (visited s) (pools s))
                     (page * perPage) (page * perPage + perPage)), s') ∧
        currentStampsPage s' = page ∧
        savedStampsPage (storage s') = Some page ∧
        visited s' = visited s ∧ pools s' = pools s ∧
        selectedIndex s' = selectedIndex s.
Proof.
  exists (exec (renderStampsAt perPage) s). unfold pageCount.
  repeat split; unfold_handlers; reflexivity.
Qed.

(** Closes arithmetic goals about the clamp: a page count is at least 1. *)
Ltac pages_lia :=
  repeat match goal with
    | |- context [totalPages ?n ?p] =>
        lazymatch goal with
        | _ : 1 ≤ totalPages n p |- _ => fail
        | _ => pose proof (totalPages_pos n p)
        end
    end;
  lia.

Lemma resetClick_declined s : resetClick false s = (Normal tt, s).
Proof. reflexivity. Qed.

Lemma resetClick_effect s :
  let s' := exec (resetClick true) s in
  visited s' = ∅ ∧ savedVisited (storage s') = Some ∅ ∧
  currentStampsPage s' = 0 ∧ savedStampsPage (storage s') = Some 0 ∧
  pools s' = pools s.
Proof. repeat split; step_handler; try done; f_equal; pages_lia. Qed.

(** C6. A confirmed reset empties the ledger, whatever it held, and stores
    the empty ledger.  Afterwards no id is visited, the count is 0, there
    is one page (for every page size), and the pagination cursor, whatever
    page it was on, is 0 and stored as 0. *)
Theorem resetClick_clears (s : App) :
  let s' := exec (resetClick true) s in
  visited s' = ∅ ∧
  savedVisited (storage s') = Some ∅ ∧
  (∀ i, isVisited (visited s') i = false) ∧
  countVisited (visited s') = 0 ∧
  (∀ perPage, 0 < perPage → pageCount perPage s' = 1) ∧
  currentStampsPage s' = 0 ∧
  savedStampsPage (storage s') = Some 0.
Proof.
  destruct (resetClick_effect s) as (Hv & Hsv & Hp & Hsp & _).
  cbv zeta in *. repeat split; try done.
  - intros i. rewrite Hv. apply isVisited_empty.
  - rewrite Hv. apply countVisited_empty.
  - intros perPage Hpp. unfold pageCount.
    rewrite Hv, visitedPools_empty. by apply totalPages_0.
Qed.

Lemma resetClick_clears_witness :
  pageCount 2 (exec (resetClick true) afterBAC) = 1 ∧
  pageCount 7 (exec (resetClick true) afterBAC) = 1.
Proof.
  destruct (resetClick_clears afterBAC) as (_ & _ & _ & _ & Hpages & _).
  split; apply Hpages; reflexivity.
Defined.

(** C4, as the specification words it, fails for a negative starting
    page: the render-time clamp only bounds the cursor from above.  With
    [-1] in the store, the cursor is still [-1] after the stamps view has
    been rendered. *)
Lemma renderStamps_keeps_negative_page :
  let s := exec (init catalogABC) (boot (mkStorage None None (Some (-1)))) in
  currentStampsPage (exec renderStamps s) = -1 ∧
  currentStampsPage (run [ToggleView] s) = -1 ∧
  ¬ pageInRange stampsPerPage (exec renderStamps s).
Proof.
  repeat split. intros [H _]. vm_compute in H. by apply H.
Qed.

Lemma renderStampsAt_clamps perPage s :
  0 ≤ currentStampsPage s →
  let s' := exec (renderStampsAt perPage) s in
  pageInRange perPage s' ∧
  currentStampsPage s' =
    Z.min (currentStampsPage s) (pageCount perPage s - 1) ∧
  savedStampsPage (storage s') = Some (currentStampsPage s').
Proof.
  intros Hp. unfold pageInRange, pageCount.
  repeat split; step_handler; pages_lia.
Qed.

Lemma handle_page_nonneg e s :
  0 ≤ currentStampsPage s → 0 ≤ currentStampsPage (exec (handle e) s).
Proof. intros Hp. destruct e; step_handler; pages_lia. Qed.

(** C4, amended. The render-time clamp makes the pagination cursor the
    smaller of its old value and the last page, [totalPages - 1] with
    [totalPages = max(1, ceil(visitedCount / pageSize))], and stores it.
    From every state whose cursor is not negative the cursor then lies in
    [0, totalPages-1]; this holds after the next-page button (also from
    the last page), the previous-page button and a confirmed reset, and no
    operation makes a non-negative cursor negative.  A negative cursor is
    not raised by the clamp: it keeps its value and stays out of range. *)
Theorem stampsPage_clamped (s : App) (perPage : Z) :
  0 < perPage →
  let s' := exec (renderStampsAt perPage) s in
  currentStampsPage s' =
    Z.min (currentStampsPage s) (pageCount perPage s - 1) ∧
  savedStampsPage (storage s') = Some (currentStampsPage s') ∧
  (0 ≤ currentStampsPage s →
   pageInRange perPage s' ∧
   pageInRange stampsPerPage (exec nextStampsPageClick s) ∧
   pageInRange stampsPerPage (exec prevStampsPageClick s) ∧
   pageInRange stampsPerPage (exec (resetClick true) s) ∧
   (∀ e, 0 ≤ currentStampsPage (exec (handle e) s))) ∧
  (currentStampsPage s < 0 →
   currentStampsPage s' = currentStampsPage s ∧ ¬ pageInRange perPage s').
Proof.
  intros Hpp s'. subst s'.
  destruct (renderStampsAt_effect perPage s) as (s' & E & Hpage & Hst & _).
  cbv zeta in *.
  assert (exec (renderStampsAt perPage) s = s') as ->
    by (unfold exec; by rewrite E).
  pose proof (totalPages_pos
    (Z.of_nat (length (visitedPools (visited s) (pools s)))) perPage) as HT.
  fold (pageCount perPage s) in HT.
  split; [done |]. split; [by rewrite Hst, Hpage |]. split.
  - intros Hp.
    destruct (renderStampsAt_clamps perPage s Hp) as (H1 & _).
    cbv zeta in H1. unfold exec in H1. rewrite E in H1. simpl in H1.
    split; [done |]. split; [| split; [| split]].
    + unfold pageInRange, pageCount. split; step_handler; pages_lia.
    + unfold pageInRange, pageCount. split; step_handler; pages_lia.
    + unfold pageInRange, pageCount. split; step_handler; pages_lia.
    + intros e. by apply handle_page_nonneg.
  - intros Hneg. rewrite Hpage. split; [lia |].
    unfold pageInRange. rewrite Hpage. lia.
Qed.

Lemma stampsPage_clamped_witness :
  (pageInRange 2 (exec (renderStampsAt 2) (run [NextStampsPage] afterBAC)) ∧
   pageInRange stampsPerPage
     (exec nextStampsPageClick (run [NextStampsPage] afterBAC))) ∧
  (let s := exec (setCurrentStampsPage (-3)) afterBAC in
   currentStampsPage (exec (renderStampsAt 2) s) = currentStampsPage s).
Proof.
  split.
  - destruct (stampsPage_clamped (run [NextStampsPage] afterBAC) 2)
      as (_ & _ & Hin & _); [reflexivity |].
    destruct Hin as (Hr & Hn & _); [vm_compute; discriminate |].
    split; [exact Hr | exact Hn].
  - intros s.
    destruct (stampsPage_clamped s 2) as (_ & _ & _ & Hneg); [reflexivity |].
    apply Hneg. vm_compute. reflexivity.
Defined.

(** [window] holds what its description says: position [i] of the window
    is position [lo + i] of the list, as long as [lo + i < hi]. *)
Lemma window_lookup {X} (l : list X) lo hi (i : nat) :
  0 ≤ lo →
  window l lo hi !! i =
    if decide (lo + Z.of_nat i < hi) then l !! (Z.to_nat lo + i)%nat else None.
Proof.
  intros Hlo. unfold window. case_decide.
  - rewrite lookup_take_lt by lia. apply lookup_drop.
  - apply lookup_take_ge. lia.
Qed.

(** For bounds that are not negative, [slice] is the window. *)
Lemma slice_window {X} (l : list X) lo hi :
  0 ≤ lo → lo ≤ hi → Js.slice l lo hi = window l lo hi.
Proof.
  intros Hlo Hhi. unfold Js.slice, window, Js.relIndex.
  destruct (Z.ltb_spec lo 0); [lia |]. destruct (Z.ltb_spec hi 0); [lia |].
  destruct (Z_lt_le_dec lo (Z.of_nat (length l))) as [Hin | Hout].
  - rewrite (Z.min_l lo) by lia.
    destruct (Z_le_gt_dec hi (Z.of_nat (length l))).
    + rewrite Z.min_l by lia. f_equal. lia.
    + rewrite Z.min_r by lia.
      rewrite !take_ge; [done | |]; rewrite length_drop; lia.
  - rewrite !(drop_ge l) by lia. by rewrite !take_nil.
Qed.

Example renderStamps_afterB : fst (renderStamps afterB) = Normal [poolB].
Proof. vm_compute. reflexivity. Qed.

Example renderStamps_afterBA :
  fst (renderStamps afterBA) = Normal [poolA; poolB].
Proof. vm_compute. reflexivity. Qed.

Example renderStamps_afterBAC_page1 :
  pageCount stampsPerPage afterBAC = 2 ∧
  fst (renderStamps afterBAC) = Normal [poolA; poolB] ∧
  fst (renderStamps (run [NextStampsPage] afterBAC)) = Normal [poolC].
Proof. vm_compute. repeat split. Qed.

(** C3, as the specification words it, fails outside the valid pages:
    [renderStamps] does not show the window of the page index it is entered
    with.  With A, B and C claimed (two pages) and the cursor at 2, the
    value the next-page button leaves when pressed on the last page, it
    shows [C], the last page, where the window [4, 6) is empty; with the
    cursor at -2 it shows [A], because [slice] counts negative bounds from
    the end, where the window [-4, -2) is empty. *)
Lemma renderStamps_not_the_window :
  (let s := exec (setCurrentStampsPage 2) afterBAC in
   fst (renderStamps s) = Normal [poolC] ∧
   visibleSlice (visited s) (pools s) (currentStampsPage s) stampsPerPage = [] ∧
   fst (renderStamps s) ≠
     Normal (visibleSlice (visited s) (pools s) (currentStampsPage s)
               stampsPerPage)) ∧
  (let s := exec (setCurrentStampsPage (-2)) afterBAC in
   fst (renderStamps s) = Normal [poolA] ∧
   visibleSlice (visited s) (pools s) (currentStampsPage s) stampsPerPage = [] ∧
   fst (renderStamps s) ≠
     Normal (visibleSlice (visited s) (pools s) (currentStampsPage s)
               stampsPerPage)).
Proof. vm_compute. repeat split; discriminate. Qed.

(** C3, amended. For every catalog, ledger, page size of at least 1 and
    cursor that is not negative, [renderStamps] puts on the grid the window
    [p*pageSize, p*pageSize+pageSize) of the visited catalog entries in
    date-key order, where [p] is the cursor after the render-time clamp,
    the smaller of the cursor and the last page.  The entries paged through
    are exactly the catalog entries whose record is done, and their date
    keys never decrease along the list.  For the catalog [A, B, C], with B
    claimed on 2 January 2025 and then A on 1 January, page 0 of size 2 is
    [A, B]; with C then claimed on 3 January there are two pages and page 1
    is [C]. *)
Theorem renderStamps_visible_page (s : App) (perPage : Z) :
  0 < perPage → 0 ≤ currentStampsPage s →
  let page := Z.min (currentStampsPage s) (pageCount perPage s - 1) in
  fst (renderStampsAt perPage s) =
    Normal (visibleSlice (visited s) (pools s) page perPage) ∧
  currentStampsPage (exec (renderStampsAt perPage) s) = page ∧
  Permutation (visitedPools (visited s) (pools s))
              (List.filter (λ p, isVisited (visited s) (id p)) (pools s)) ∧
  Sorted (λ a b, Js.localeCompare (dateKey (dateOf (visited s) a))
                                  (dateKey (dateOf (visited s) b)) ≠ Gt)
         (visitedPools (visited s) (pools s)) ∧
  fst (renderStamps afterB) = Normal [poolB] ∧
  fst (renderStamps afterBA) = Normal [poolA; poolB] ∧
  pageCount stampsPerPage afterBAC = 2 ∧
  fst (renderStamps (run [NextStampsPage] afterBAC)) = Normal [poolC].
Proof.
  intros Hpp Hp page.
  destruct (renderStampsAt_effect perPage s) as (s' & E & Hpage & _).
  cbv zeta in *. fold page in E, Hpage.
  assert (0 ≤ page).
  { subst page. unfold pageCount. pages_lia. }
  split; [| split; [| split; [| split]]].
  - rewrite E. simpl. unfold visibleSlice. f_equal. apply slice_window; nia.
  - unfold exec. by rewrite E.
  - apply visitedPools_perm.
  - apply visitedPools_sorted.
  - pose proof renderStamps_afterBAC_page1 as (? & _ & ?).
    auto using renderStamps_afterB, renderStamps_afterBA.
Qed.

Lemma renderStamps_visible_page_witness :
  let s := exec (setCurrentStampsPage 2) afterBAC in
  fst (renderStampsAt 2 s) =
    Normal (visibleSlice (visited s) (pools s)
              (Z.min (currentStampsPage s) (pageCount 2 s - 1)) 2).
Proof.
  intros s. destruct (renderStamps_visible_page s 2) as (H & _).
  - reflexivity.
  - vm_compute. discriminate.
  - exact H.
Defined.

(** ** Completion *)

Lemma isVisited_dom (v : Ledger) i :
  isVisited v i = true ↔
  i ∈ (dom (filter (λ kv : string * VisitRecord, done kv.2 = true) v)
         : gset string).
Proof.
  rewrite elem_of_dom. unfold isVisited, is_Some.
  setoid_rewrite map_lookup_filter_Some. simpl.
  destruct (v !! i) as [r |]; split.
  - intros H. eauto.
  - intros (x & [= <-] & H). done.
  - done.
  - intros (x & ? & _). done.
Qed.

(** When the ledger has records for catalog ids only and the catalog ids
    are distinct, the count reaches the catalog length exactly when every
    catalog entry is visited. *)
Lemma countVisited_complete (v : Ledger) (ps : list Pool) :
  NoDup (id <$> ps) →
  (∀ i, isVisited v i = true → i ∈ id <$> ps) →
  countVisited v = Z.of_nat (length ps) ↔
  ∀ p, p ∈ ps → isVisited v (id p) = true.
Proof.
  intros Hnd Hsub. unfold countVisited.
  set (D := dom (filter (λ kv : string * VisitRecord, done kv.2 = true) v)
            : gset string).
  set (I := list_to_set (id <$> ps) : gset string).
  assert (size D = size (filter (λ kv : string * VisitRecord,
                                   done kv.2 = true) v)) as <-
    by apply size_dom.
  assert (size I = length ps) as HI.
  { unfold I. rewrite size_list_to_set by done. apply length_fmap. }
  assert (D ⊆ I) as HDI.
  { intros i Hi. apply elem_of_list_to_set, Hsub, isVisited_dom, Hi. }
  split.
  - intros Hsz p Hp. apply isVisited_dom. fold D.
    assert (D = I) as -> by (apply set_subseteq_size_eq; [done | lia]).
    apply elem_of_list_to_set, list_elem_of_fmap. eauto.
  - intros Hall. assert (I ⊆ D) as HID.
    { intros i (p & -> & Hp)%elem_of_list_to_set%list_elem_of_fmap.
      apply isVisited_dom. auto. }
    apply subseteq_size in HDI, HID. lia.
Qed.

(** Once every catalog entry is visited, only a confirmed reset changes
    the ledger. *)
Lemma handle_complete_ledger e s :
  (∀ p, p ∈ pools s → isVisited (visited s) (id p) = true) →
  e ≠ Reset true → visited (exec (handle e) s) = visited s.
Proof.
  intros Hall He. destruct e as [poolId today | [|] | | | | |];
    try congruence; try (step_handler; auto; fail).
  change (handle (ClaimTreasure poolId today)) with (toggleStamp poolId today).
  destruct (toggleStamp_effect s poolId today)
    as [E | (_ & Hn & (p & Hp & <-) & _)].
  - unfold exec. by rewrite E.
  - rewrite Hall in Hn by done. discriminate.
Qed.

Lemma run_complete_ledger es : ∀ s,
  (∀ p, p ∈ pools s → isVisited (visited s) (id p) = true) →
  Forall (λ e, e ≠ Reset true) es → visited (run es s) = visited s.
Proof.
  induction es as [|e es IH]; intros s Hall Hes; [done |].
  apply Forall_cons in Hes as [He Hes]. rewrite run_cons.
  pose proof (handle_complete_ledger e s Hall He) as Hk.
  rewrite IH, Hk; auto. rewrite handle_pools, Hk. done.
Qed.

(** The overlays of a claim that goes through, when the list renders. *)
Lemma toggleStamp_overlays s poolId today p :
  poolId ≠ "" → isVisited (visited s) poolId = false →
  find (λ x, String.eqb (id x) poolId) (pools s) = Some p →
  is_Some (Js.index (pools s) (selectedIndex s)) →
  let s' := exec (toggleStamp poolId today) s in
  overlays s' =
    (overlays s ++ TreasureFound (name p) ::
       (if completionReached (visited s') (Z.of_nat (length (pools s')))
        then [AllTreasureFound] else []))%list.
Proof.
  intros He Hv Hf [q Hq]. apply String.eqb_neq in He.
  step_handler; try congruence; by rewrite <- ?app_assoc.
Qed.

Example completion_scenario :
  completionReached (visited fresh) 3 = false ∧
  completionReached (visited afterB) 3 = false ∧
  completionReached (visited afterBA) 3 = false ∧
  completionReached (visited afterBAC) 3 = true ∧
  overlays afterBA =
    [TreasureFound "Bravo Bay"; TreasureFound "Alpha Cove"] ∧
  overlays afterBAC =
    [TreasureFound "Bravo Bay"; TreasureFound "Alpha Cove";
     TreasureFound "Charlie Beach"; AllTreasureFound] ∧
  run [ClaimTreasure "C" "04/01/2025"; ClaimTreasure "A" "04/01/2025"]
      afterBAC = afterBAC ∧
  completionReached (visited (run [Reset true] afterBAC)) 3 = false.
Proof. vm_compute. repeat split. Qed.

(** C7, as the specification words it, fails when the ledger holds a
    done record for an id that is not in the catalog (a pool that has left
    the catalog since it was claimed).  With such a record [Z] in the store
    and the catalog [A, B], claiming A makes the condition true, and
    [toggleStamp] requests the finale, while B is unclaimed; claiming B,
    the last location, then makes it false, with no reset in between. *)
Lemma completion_with_stale_record :
  let st :=
    mkStorage (Some {[ "Z" := mkVisit true "01/01/2024" ]}) None None in
  let s1 := session st [poolA; poolB] [ClaimTreasure "A" "02/01/2025"] in
  let s2 := session st [poolA; poolB]
              [ClaimTreasure "A" "02/01/2025"; ClaimTreasure "B" "03/01/2025"]
  in
  (completionReached (visited s1) 2 = true ∧
   isVisited (visited s1) "B" = false ∧
   overlays s1 = [TreasureFound "Alpha Cove"; AllTreasureFound]) ∧
  (isVisited (visited s2) "A" = true ∧
   isVisited (visited s2) "B" = true ∧
   completionReached (visited s2) 2 = false).
Proof. vm_compute. repeat split. Qed.

(** C7, amended. [completionReached(totalLocations)] is true exactly when
    the number of records that are done equals [totalLocations] and
    [totalLocations > 0].  It is a function of the ledger alone, so asking
    again over the same ledger gives the same answer.  When the catalog
    ids are distinct and every done record of the ledger belongs to a
    catalog id, it is true exactly when the catalog is not empty and every
    entry is visited, hence false before the last location is claimed; and
    from a state in which every catalog entry is visited, every sequence
    of operations without a confirmed reset leaves the ledger, and so the
    answer, as it is.  With three locations and an empty ledger to start
    from it is false after no, one and two claims, true after the third,
    when [toggleStamp] requests the finale once, and false after a
    reset. *)
Theorem completionReached_iff (v : Ledger) (totalLocations : Z) :
  (completionReached v totalLocations = true ↔
   countVisited v = totalLocations ∧ 0 < totalLocations) ∧
  (∀ ps, NoDup (id <$> ps) →
         (∀ i, isVisited v i = true → i ∈ id <$> ps) →
         completionReached v (Z.of_nat (length ps)) = true ↔
         ps ≠ [] ∧ ∀ p, p ∈ ps → isVisited v (id p) = true) ∧
  (∀ s es, visited s = v →
           (∀ p, p ∈ pools s → isVisited v (id p) = true) →
           Forall (λ e, e ≠ Reset true) es →
           completionReached (visited (run es s)) totalLocations =
           completionReached v totalLocations) ∧
  (completionReached (visited fresh) 3 = false ∧
   completionReached (visited afterB) 3 = false ∧
   completionReached (visited afterBA) 3 = false ∧
   completionReached (visited afterBAC) 3 = true ∧
   overlays afterBAC =
     [TreasureFound "Bravo Bay"; TreasureFound "Alpha Cove";
      TreasureFound "Charlie Beach"; AllTreasureFound] ∧
   run [ClaimTreasure "C" "04/01/2025"; ClaimTreasure "A" "04/01/2025"]
       afterBAC = afterBAC ∧
   completionReached (visited (run [Reset true] afterBAC)) 3 = false).
Proof.
  split; [| split; [| split]].
  - unfold completionReached.
    rewrite andb_true_iff, Z.ltb_lt, Z.eqb_eq. tauto.
  - intros ps Hnd Hsub. unfold completionReached.
    rewrite andb_true_iff, Z.ltb_lt, Z.eqb_eq,
      (countVisited_complete v ps Hnd Hsub), <- length_pos_nonempty.
    tauto.
  - intros s es <- Hall Hes. by rewrite run_complete_ledger.
  - pose proof completion_scenario. tauto.
Qed.

Lemma catalogABC_distinct : NoDup (id <$> catalogABC).
Proof. apply (bool_decide_unpack _). vm_compute. exact I. Qed.

Lemma afterBAC_within_catalog i :
  isVisited (visited afterBAC) i = true → i ∈ id <$> catalogABC.
Proof.
  intros Hi.
  assert (i ∈ elements (dom (visited afterBAC) : gset string)) as Hd.
  { apply elem_of_elements, elem_of_dom. unfold isVisited in Hi.
    destruct (visited afterBAC !! i); [eauto | discriminate]. }
  replace (elements (dom (visited afterBAC) : gset string))
    with ["C"; "A"; "B"] in Hd by (vm_compute; reflexivity).
  repeat (apply elem_of_cons in Hd as [-> | Hd];
          [apply (bool_decide_unpack _); vm_compute; exact I |]).
  exfalso. exact (not_elem_of_nil _ Hd).
Qed.

Lemma completionReached_iff_witness :
  completionReached (visited afterBAC) 3 = true ∧
  (completionReached (visited afterBAC) (Z.of_nat (length catalogABC)) = true ↔
   catalogABC ≠ [] ∧
   ∀ p, p ∈ catalogABC → isVisited (visited afterBAC) (id p) = true).
Proof.
  destruct (completionReached_iff (visited afterBAC) 3) as (Hiff & Hall & _).
  split.
  - apply Hiff. vm_compute. split; reflexivity.
  - apply Hall; [apply catalogABC_distinct | apply afterBAC_within_catalog].
Defined.

(** * Further properties of the code *)

(** ** Date display *)

Lemma formatDateAU_iso_shape Y M D :
  digits 4 Y → digits 2 M → digits 2 D → formatDateAU (iso Y M D) = au Y M D.
Proof.
  intros HY HM HD. split_digits. sep_facts "-"%char.
  unfold formatDateAU, iso, au. cbv [String.append]. crunch. reflexivity.
Qed.

Lemma formatDateAU_other s : ¬ isoShape s → formatDateAU s = s.
Proof.
  intros Hi. unfold formatDateAU.
  destruct (String.eqb_spec s "") as [-> | _]; [done |].
  destruct (Js.test reISO s) eqn:Ei; [by apply test_reISO in Ei | done].
Qed.

Lemma au_not_iso Y M D :
  digits 4 Y → digits 2 M → digits 2 D → ¬ isoShape (au Y M D).
Proof.
  intros HY HM HD Hiso. apply test_reISO in Hiso. revert Hiso.
  split_digits. unfold au. cbv [String.append]. crunch. discriminate.
Qed.

(** X1. [formatDateAU] turns a date of the shape YYYY-MM-DD into
    DD/MM/YYYY with the same year, month and day, and returns every other
    string, the empty one included, as it is. *)
Theorem formatDateAU_converts :
  (∀ Y M D, digits 4 Y → digits 2 M → digits 2 D →
     formatDateAU (iso Y M D) = au Y M D) ∧
  (∀ s, ¬ isoShape s → formatDateAU s = s).
Proof. split; [apply formatDateAU_iso_shape | apply formatDateAU_other]. Qed.

Lemma formatDateAU_converts_witness :
  formatDateAU (iso "2025" "01" "05") = au "2025" "01" "05" ∧
  formatDateAU "5 Jan 2025" = "5 Jan 2025".
Proof.
  destruct formatDateAU_converts as [Hiso Hother]. split.
  - apply Hiso; [apply digits_2025 | apply digits_01 | apply digits_05].
  - apply Hother. apply not_a_date.
Defined.

(** X2. Formatting a date for display twice is the same as formatting it
    once: what [formatDateAU] returns is never again of the ISO shape. *)
Theorem formatDateAU_idempotent (d : string) :
  formatDateAU (formatDateAU d) = formatDateAU d.
Proof.
  destruct (Js.test reISO d) eqn:Ei.
  - apply test_reISO in Ei as (Y & M & D & HY & HM & HD & ->).
    rewrite formatDateAU_iso_shape by done.
    apply formatDateAU_other. by apply au_not_iso.
  - assert (¬ isoShape d) as Hn by (intros H%test_reISO; congruence).
    by rewrite !(formatDateAU_other d Hn).
Qed.

(** X3. The display form of a stored date has the same sort key as the
    stored date: [dateKey (formatDateAU d) = dateKey d] for every string. *)
Theorem dateKey_formatDateAU (d : string) :
  dateKey (formatDateAU d) = dateKey d.
Proof.
  destruct (Js.test reISO d) eqn:Ei.
  - apply test_reISO in Ei as (Y & M & D & HY & HM & HD & ->).
    rewrite formatDateAU_iso_shape by done.
    by rewrite dateKey_au_shape, dateKey_iso_shape.
  - assert (¬ isoShape d) as Hn by (intros H%test_reISO; congruence).
    by rewrite (formatDateAU_other d Hn).
Qed.

Lemma allDigits_cons c s :
  allDigits (String c s) ↔ Js.isDigit c = true ∧ allDigits s.
Proof. unfold allDigits. simpl. apply andb_true_iff. Qed.

Lemma allDigits_app_inv a b : allDigits (a +:+ b) → allDigits a ∧ allDigits b.
Proof.
  induction a as [|c a IH].
  - intros H. split; [done | exact H].
  - change (String c a +:+ b) with (String c (a +:+ b)).
    rewrite !allDigits_cons. intros [Hc [Ha Hb]%IH]. auto.
Qed.

Lemma allDigits_no_sep a sep b :
  Js.isDigit sep = false → ¬ allDigits (a +:+ String sep b).
Proof.
  intros Hs [_ [Hc _]%allDigits_cons]%allDigits_app_inv. congruence.
Qed.

Lemma removeAll_digits s :
  allDigits s → Js.removeAll (λ c, negb (Js.isDigit c)) s = s.
Proof.
  induction s as [|c s IH]; [done |].
  intros [Hc Hs]%allDigits_cons. simpl. rewrite Hc. simpl. by rewrite IH.
Qed.

Lemma dateKey_of_digits s : allDigits s → dateKey s = s.
Proof.
  intros Hs. rewrite dateKey_fallback; [by apply removeAll_digits | |].
  - intros (Y & M & D & _ & _ & _ & ->). unfold iso in Hs.
    by apply (allDigits_no_sep Y "-"%char) in Hs.
  - intros (Y & M & D & _ & _ & _ & ->). unfold au in Hs.
    by apply (allDigits_no_sep D "/"%char) in Hs.
Qed.

(** X4. A date key consists of ASCII digits only, whatever the input, and
    [dateKey] leaves a string of digits as it is; so taking the key of a
    key changes nothing. *)
Theorem dateKey_canonical (d : string) :
  allDigits (dateKey d) ∧
  dateKey (dateKey d) = dateKey d ∧
  (allDigits d → dateKey d = d).
Proof.
  split; [apply dateKey_digits |]. split; [| apply dateKey_of_digits].
  apply dateKey_of_digits, dateKey_digits.
Qed.

Lemma dateKey_canonical_witness : dateKey "20250105" = "20250105".
Proof.
  destruct (dateKey_canonical "20250105") as (_ & _ & H).
  apply H. reflexivity.
Defined.

(** ** Order of the stamps *)

Lemma string_compare_refl s : String.compare s s = Eq.
Proof.
  induction s as [|c s IH]; simpl; [done |].
  unfold Ascii.compare. by rewrite N.compare_refl.
Qed.

(** Insertion does not reorder the elements of a class that the
    comparison does not separate. *)
Lemma insertBy_filter {X} (cmp : X → X → comparison) (P : X → bool) x l :
  (∀ a b, P a = true → P b = true → cmp a b ≠ Gt) →
  List.filter P (Js.insertBy cmp x l) = List.filter P (x :: l).
Proof.
  intros HP. induction l as [|y l IH]; [done |].
  simpl Js.insertBy. destruct (cmp x y) eqn:E; try done.
  simpl in *. rewrite IH.
  destruct (P x) eqn:Px, (P y) eqn:Py; try done.
  by destruct (HP x y Px Py).
Qed.

Lemma sort_filter {X} (cmp : X → X → comparison) (P : X → bool) l :
  (∀ a b, P a = true → P b = true → cmp a b ≠ Gt) →
  List.filter P (Js.sort cmp l) = List.filter P l.
Proof.
  intros HP. induction l as [|x l IH]; [done |].
  simpl Js.sort. rewrite insertBy_filter by done.
  simpl. by rewrite IH.
Qed.

(** X5. The sort of the stamps is stable: the visited pools that share a
    date key appear in the stamps list in the order the catalog has
    them. *)
Theorem visitedPools_stable (v : Ledger) (ps : list Pool) (key : string) :
  List.filter (λ p, String.eqb (dateKey (dateOf v p)) key) (visitedPools v ps)
  = List.filter (λ p, String.eqb (dateKey (dateOf v p)) key)
      (List.filter (λ p, isVisited v (id p)) ps).
Proof.
  apply sort_filter. intros a b Ha%String.eqb_eq Hb%String.eqb_eq.
  unfold byDateKey, Js.localeCompare.
  rewrite Ha, Hb, string_compare_refl. discriminate.
Qed.

(** ** Pages *)

Lemma cardsOn_window perPage s k :
  0 < perPage → 0 ≤ k →
  cardsOn perPage s k =
    window (visitedPools (visited s) (pools s))
      (Z.min k (pageCount perPage s - 1) * perPage)
      (Z.min k (pageCount perPage s - 1) * perPage + perPage).
Proof.
  intros Hpp Hk. unfold cardsOn.
  destruct (renderStampsAt_effect perPage (exec (setCurrentStampsPage k) s))
    as (s' & E & _).
  cbv zeta in E. rewrite E. simpl fst.
  change (pageCount perPage (exec (setCurrentStampsPage k) s))
    with (pageCount perPage s).
  change (currentStampsPage (exec (setCurrentStampsPage k) s)) with k.
  change (visited (exec (setCurrentStampsPage k) s)) with (visited s).
  change (pools (exec (setCurrentStampsPage k) s)) with (pools s).
  apply slice_window; unfold pageCount; [| lia].
  pose proof (totalPages_pos
    (Z.of_nat (length (visitedPools (visited s) (pools s)))) perPage). nia.
Qed.

Lemma concat_chunks {X} (l : list X) (n m : nat) :
  concat ((λ k, take n (drop (k * n) l)) <$> seq 0 m) = take (m * n) l.
Proof.
  induction m as [|m IH]; [by rewrite take_0 |].
  rewrite seq_S, fmap_app, concat_app, IH. simpl.
  rewrite app_nil_r, take_take_drop. f_equal. lia.
Qed.

(** X6. The pages tile the stamps list: put one after the other, the
    cards of the pages [0] to [totalPages - 1] are the visited pools in
    date-key order, each once.  A page never has more than [pageSize]
    cards, every page before the last has exactly [pageSize], and every
    card is a catalog entry whose record is done. *)
Theorem pages_tile (s : App) (perPage : Z) :
  0 < perPage →
  concat ((λ k, cardsOn perPage s (Z.of_nat k)) <$>
            seq 0 (Z.to_nat (pageCount perPage s)))
    = visitedPools (visited s) (pools s) ∧
  (∀ k, 0 ≤ k → Z.of_nat (length (cardsOn perPage s k)) ≤ perPage) ∧
  (∀ k, 0 ≤ k < pageCount perPage s - 1 →
        Z.of_nat (length (cardsOn perPage s k)) = perPage) ∧
  (∀ k p, 0 ≤ k → p ∈ cardsOn perPage s k →
          p ∈ pools s ∧ isVisited (visited s) (id p) = true).
Proof.
  intros Hpp.
  pose proof (totalPages_spec
                (Z.of_nat (length (visitedPools (visited s) (pools s))))
                perPage Hpp ltac:(lia)) as [Hfit Hlast].
  pose proof (totalPages_pos
                (Z.of_nat (length (visitedPools (visited s) (pools s))))
                perPage) as HT.
  fold (pageCount perPage s) in Hfit, Hlast, HT.
  set (l := visitedPools (visited s) (pools s)) in *.
  assert (∃ n : nat, perPage = Z.of_nat n) as [n ->]
    by (exists (Z.to_nat perPage); lia).
  assert (∃ m : nat, pageCount (Z.of_nat n) s = Z.of_nat m) as [m Hm]
    by (exists (Z.to_nat (pageCount (Z.of_nat n) s)); lia).
  rewrite Hm in *. rewrite Nat2Z.id.
  assert (∀ k, 0 ≤ k →
            cardsOn (Z.of_nat n) s k =
            take n (drop (Z.to_nat (Z.min k (Z.of_nat m - 1)) * n) l))
    as Hcards.
  { intros k Hk. rewrite cardsOn_window by lia. fold l. rewrite Hm.
    unfold window. f_equal; [lia | f_equal; nia]. }
  split; [| split; [| split]].
  - transitivity (take (m * n) l); [| apply take_ge; nia].
    rewrite <- concat_chunks. f_equal.
    apply list_fmap_ext. intros i k [-> Hk]%lookup_seq.
    rewrite Hcards by lia. do 3 f_equal. lia.
  - intros k Hk. rewrite Hcards by lia. rewrite length_take. lia.
  - intros k Hk. rewrite Hcards by lia.
    rewrite length_take, length_drop, Z.min_l by lia. nia.
  - intros k p Hk Hp. rewrite Hcards in Hp by lia.
    apply (subseteq_take n), (subseteq_drop _ l) in Hp. subst l.
    rewrite (visitedPools_perm (visited s) (pools s)) in Hp.
    apply list_elem_of_In, filter_In in Hp as [Hin Hv].
    split; [by apply list_elem_of_In | done].
Qed.

Lemma pages_tile_witness :
  concat ((λ k, cardsOn 2 afterBAC (Z.of_nat k)) <$>
            seq 0 (Z.to_nat (pageCount 2 afterBAC)))
    = visitedPools (visited afterBAC) (pools afterBAC) ∧
  Z.of_nat (length (cardsOn 2 afterBAC 0)) = 2.
Proof.
  destruct (pages_tile afterBAC 2) as (Hall & _ & Hfull & _); [reflexivity |].
  split; [exact Hall |]. apply Hfull. vm_compute. split; [discriminate | reflexivity].
Defined.

Lemma page_buttons_effect s :
  currentStampsPage (exec nextStampsPageClick s) =
    Z.min (currentStampsPage s + 1) (pageCount stampsPerPage s - 1) ∧
  currentStampsPage (exec prevStampsPageClick s) =
    Z.min (Z.max 0 (currentStampsPage s - 1)) (pageCount stampsPerPage s - 1) ∧
  pageCount stampsPerPage (exec nextStampsPageClick s) =
    pageCount stampsPerPage s ∧
  pageCount stampsPerPage (exec prevStampsPageClick s) =
    pageCount stampsPerPage s.
Proof. repeat split. Qed.

(** X7. The page buttons saturate.  With the cursor on a valid page, the
    next-page button moves it forward by one page, except on the last
    page, where it leaves it; the previous-page button moves it back by
    one, except on page 0, where it leaves it.  Off the ends, each button
    undoes the other. *)
Theorem page_buttons_saturate (s : App) :
  pageInRange stampsPerPage s →
  let page := currentStampsPage s in
  let last := pageCount stampsPerPage s - 1 in
  (page < last → currentStampsPage (exec nextStampsPageClick s) = page + 1) ∧
  (page = last → currentStampsPage (exec nextStampsPageClick s) = page) ∧
  (0 < page → currentStampsPage (exec prevStampsPageClick s) = page - 1) ∧
  (page = 0 → currentStampsPage (exec prevStampsPageClick s) = 0) ∧
  (page < last →
   currentStampsPage (run [NextStampsPage; PrevStampsPage] s) = page) ∧
  (0 < page →
   currentStampsPage (run [PrevStampsPage; NextStampsPage] s) = page).
Proof.
  intros [Hlo Hhi] page last.
  destruct (page_buttons_effect s) as (Hn & Hp & Hcn & Hcp).
  destruct (page_buttons_effect (exec nextStampsPageClick s))
    as (_ & Hnp & _).
  destruct (page_buttons_effect (exec prevStampsPageClick s))
    as (Hpn & _).
  rewrite Hcn, Hn in Hnp. rewrite Hcp, Hp in Hpn.
  fold page last in Hn, Hp, Hnp, Hpn, Hlo, Hhi.
  change (run [NextStampsPage; PrevStampsPage] s)
    with (exec prevStampsPageClick (exec nextStampsPageClick s)).
  change (run [PrevStampsPage; NextStampsPage] s)
    with (exec nextStampsPageClick (exec prevStampsPageClick s)).
  rewrite Hn, Hp, Hnp, Hpn. repeat split; lia.
Qed.

Lemma page_buttons_saturate_witness :
  let s := run [NextStampsPage] afterBAC in
  currentStampsPage (exec nextStampsPageClick s) = currentStampsPage s ∧
  currentStampsPage (exec prevStampsPageClick s) = currentStampsPage s - 1.
Proof.
  intros s. destruct (page_buttons_saturate s) as (_ & Hlast & Hprev & _).
  - vm_compute. split; discriminate.
  - split; [apply Hlast | apply Hprev]; reflexivity.
Defined.

(** ** The ledger through a session *)

(** The three things a handler can do to the ledger. *)
Lemma handle_ledger_cases e s :
  visited (exec (handle e) s) = visited s ∨
  (e = Reset true ∧ visited (exec (handle e) s) = ∅) ∨
  (∃ x today, e = ClaimTreasure x today ∧ x ≠ "" ∧
              isVisited (visited s) x = false ∧
              (∃ p, p ∈ pools s ∧ id p = x) ∧
              visited (exec (handle e) s) =
                <[x := mkVisit true today]> (visited s)).
Proof.
  destruct e as [x today | [|] | | | | |];
    try (left; step_handler; auto; fail).
  - change (handle (ClaimTreasure x today)) with (toggleStamp x today).
    destruct (toggleStamp_effect s x today)
      as [E | (Hne & Hv & Hp & Hs & _)].
    + left. unfold exec. by rewrite E.
    + right. right. exists x, today. auto.
  - right. left. split; [done |]. apply resetClick_effect.
Qed.

(** X8. Moving the selection, turning pages, switching the view and
    declining the reset never touch the ledger: the ledger, the stored
    ledger, the catalog and the overlays are as before. *)
Theorem navigation_keeps_ledger (e : Event) (s : App) :
  (∀ x today, e ≠ ClaimTreasure x today) → e ≠ Reset true →
  visited (exec (handle e) s) = visited s ∧
  savedVisited (storage (exec (handle e) s)) = savedVisited (storage s) ∧
  overlays (exec (handle e) s) = overlays s ∧
  pools (exec (handle e) s) = pools s.
Proof.
  intros Hc Hr. destruct e as [x today | [|] | | | | |];
    try congruence; try (by destruct (Hc x today));
    repeat split; step_handler; auto.
Qed.

Lemma navigation_keeps_ledger_witness :
  visited (exec (handle NextStampsPage) afterBAC) = visited afterBAC.
Proof.
  destruct (navigation_keeps_ledger NextStampsPage afterBAC) as (H & _);
    [discriminate | discriminate | exact H].
Defined.

(** X9. Whatever is in the ledger at the end of a run was either there at
    the start, unchanged, or written by a claim of that run: then the id is
    a catalog id, the record is done, and its date is the date of that
    claim. *)
Theorem ledger_provenance (es : list Event) (s : App) (i : string)
    (r : VisitRecord) :
  visited (run es s) !! i = Some r →
  visited s !! i = Some r ∨
  (∃ today, ClaimTreasure i today ∈ es ∧ r = mkVisit true today ∧
            ∃ p, p ∈ pools s ∧ id p = i).
Proof.
  revert s. induction es as [|e es IH]; intros s Hr; [by left |].
  rewrite run_cons in Hr. apply IH in Hr.
  destruct Hr as [Hr | (today & Hin & -> & p & Hp & Hid)].
  - destruct (handle_ledger_cases e s)
      as [E | [[_ E] | (x & today & -> & _ & _ & Hp & E)]];
      rewrite E in Hr.
    + by left.
    + by rewrite lookup_empty in Hr.
    + destruct (decide (x = i)) as [-> | Hne].
      * rewrite lookup_insert_eq in Hr. injection Hr as <-.
        right. exists today. split; [by left | auto].
      * rewrite lookup_insert_ne in Hr by done. by left.
  - right. exists today. split; [by right |]. split; [done |].
    exists p. by rewrite handle_pools in Hp.
Qed.

Lemma ledger_provenance_witness :
  visited fresh !! "A" = Some (mkVisit true "01/01/2025") ∨
  (∃ today, ClaimTreasure "A" today ∈
              [ClaimTreasure "B" "02/01/2025"; ClaimTreasure "A" "01/01/2025"] ∧
            mkVisit true "01/01/2025" = mkVisit true today ∧
            ∃ p, p ∈ pools fresh ∧ id p = "A").
Proof.
  apply (ledger_provenance
           [ClaimTreasure "B" "02/01/2025"; ClaimTreasure "A" "01/01/2025"]
           fresh "A" (mkVisit true "01/01/2025")).
  vm_compute. reflexivity.
Defined.

Lemma countVisited_insert (v : Ledger) x today :
  isVisited v x = false →
  countVisited (<[x := mkVisit true today]> v) = countVisited v + 1.
Proof.
  intros Hv. unfold countVisited.
  rewrite map_filter_insert_True by done.
  rewrite map_size_insert_None; [lia |].
  apply map_lookup_filter_None. right. intros r Hr Hd. simpl in Hd.
  unfold isVisited in Hv. rewrite Hr in Hv. congruence.
Qed.

(** X10. A claim that goes through raises the visited count by exactly
    one; any operation other than a confirmed reset leaves the count as it
    is or raises it by one, so the count never goes down without a
    reset. *)
Theorem count_grows_by_claims (s : App) :
  (∀ x today, x ≠ "" → isVisited (visited s) x = false →
     (∃ p, p ∈ pools s ∧ id p = x) →
     countVisited (visited (exec (toggleStamp x today) s)) =
       countVisited (visited s) + 1) ∧
  (∀ e, e ≠ Reset true →
     countVisited (visited s) ≤ countVisited (visited (exec (handle e) s))
       ≤ countVisited (visited s) + 1).
Proof.
  split.
  - intros x today Hne Hv Hp.
    destruct (toggleStamp_claim s x today Hne Hv Hp) as (E & _).
    cbv zeta in E. rewrite E. by apply countVisited_insert.
  - intros e He.
    destruct (handle_ledger_cases e s)
      as [E | [[-> _] | (x & today & -> & _ & Hv & _ & E)]];
      [rewrite E; lia | done |].
    rewrite E, countVisited_insert by done. lia.
Qed.

Lemma count_grows_by_claims_witness :
  countVisited (visited (exec (toggleStamp "A" "01/01/2025") afterB)) =
    countVisited (visited afterB) + 1.
Proof.
  destruct (count_grows_by_claims afterB) as [H _].
  apply H; [discriminate | reflexivity |].
  exists poolA. split; [| reflexivity]. apply list_elem_of_In. left.
  reflexivity.
Defined.

(** X11. After a confirmed reset every catalog pool can be claimed again:
    a reset followed by a claim of a catalog id leaves a ledger with that
    one record, dated with the new claim, whatever the ledger held
    before. *)
Theorem reset_then_claim (s : App) (x today : string) :
  x ≠ "" → (∃ p, p ∈ pools s ∧ id p = x) →
  visited (run [Reset true; ClaimTreasure x today] s) =
    {[ x := mkVisit true today ]}.
Proof.
  intros Hne Hp.
  change (run [Reset true; ClaimTreasure x today] s)
    with (exec (toggleStamp x today) (exec (resetClick true) s)).
  destruct (resetClick_effect s) as (Hv & _ & _ & _ & Hpools).
  cbv zeta in *.
  destruct (toggleStamp_claim (exec (resetClick true) s) x today Hne)
    as (E & _).
  - rewrite Hv. apply isVisited_empty.
  - by rewrite Hpools.
  - cbv zeta in E. rewrite E, Hv. apply insert_empty.
Qed.

Lemma reset_then_claim_witness :
  visited (run [Reset true; ClaimTreasure "B" "09/09/2025"] afterBAC) =
    {[ "B" := mkVisit true "09/09/2025" ]}.
Proof.
  apply reset_then_claim; [discriminate |].
  exists poolB. split; [| reflexivity].
  vm_compute. apply list_elem_of_further, list_elem_of_here.
Defined.

(** ** The selection through a session *)

(** X12. The two selection buttons undo each other: from a selection in
    range, up then down, and down then up, end on the pool they started
    from. *)
Theorem up_down_inverse (s : App) :
  0 ≤ selectedIndex s < Z.of_nat (length (pools s)) →
  selectedIndex (run [Up; Down] s) = selectedIndex s ∧
  selectedIndex (run [Down; Up] s) = selectedIndex s.
Proof.
  intros Hs.
  assert (pools s ≠ []) as Hne by (apply length_pos_nonempty; lia).
  destruct (btnUpClick_effect s Hne) as (Hu & _ & Hpu).
  destruct (btnDownClick_effect s Hne) as (Hd & _ & Hpd).
  cbv zeta in *.
  destruct (btnDownClick_effect (exec btnUpClick s)) as (Hud & _);
    [by rewrite Hpu |].
  destruct (btnUpClick_effect (exec btnDownClick s)) as (Hdu & _);
    [by rewrite Hpd |].
  cbv zeta in *. rewrite Hpu, Hu in Hud. rewrite Hpd, Hd in Hdu.
  change (run [Up; Down] s) with (exec btnDownClick (exec btnUpClick s)).
  change (run [Down; Up] s) with (exec btnUpClick (exec btnDownClick s)).
  rewrite Hud, Hdu. clear Hu Hd Hud Hdu.
  set (N := Z.of_nat (length (pools s))) in *.
  set (i := selectedIndex s) in *.
  split.
  - destruct (Z.eq_dec i (N - 1)) as [-> | Hi].
    + replace (N - 1 + 1) with N by lia. rewrite Z.rem_same by lia.
      replace (0 - 1 + N) with (N - 1) by lia. apply Z.rem_small. lia.
    + rewrite (Z.rem_small (i + 1)) by lia.
      replace (i + 1 - 1 + N) with (i + 1 * N) by lia.
      rewrite Z.rem_add by nia. apply Z.rem_small. lia.
  - destruct (Z.eq_dec i 0) as [-> | Hi].
    + rewrite (Z.rem_small (0 - 1 + N)) by lia.
      replace (0 - 1 + N + 1) with N by lia. apply Z.rem_same. lia.
    + replace (i - 1 + N) with (i - 1 + 1 * N) by lia.
      rewrite Z.rem_add by nia. rewrite (Z.rem_small (i - 1)) by lia.
      replace (i - 1 + 1) with i by lia. apply Z.rem_small. lia.
Qed.

Lemma up_down_inverse_witness :
  let s := run [Up; Up] fresh in
  selectedIndex (run [Up; Down] s) = selectedIndex s.
Proof.
  intros s. destruct (up_down_inverse s) as [H _]; [| exact H].
  vm_compute. split; [discriminate | reflexivity].
Defined.

Lemma index_in_range {X} (l : list X) i :
  Js.index l i = None → 0 ≤ i → i < Z.of_nat (length l) → False.
Proof.
  unfold Js.index. intros H Hlo Hhi.
  destruct (Z.ltb_spec i 0); [lia |].
  apply lookup_ge_None in H. lia.
Qed.

Lemma rem_in_range a n : 0 ≤ a → 0 < n → 0 ≤ Z.rem a n < n.
Proof. intros. apply Z.rem_bound_pos; lia. Qed.

(** Refutes a failed catalog lookup at an index known to be in range. *)
Ltac index_absurd :=
  exfalso;
  match goal with
  | H : Js.index ?l ?i = None, Hne : ?l ≠ [] |- _ =>
      pose proof (proj1 (length_pos_nonempty l) Hne);
      apply (index_in_range l i H); zbool;
      try (apply rem_in_range); lia
  end.

Lemma init_effect loaded s :
  let s' := exec (init loaded) s in
  fst (init loaded s) = Normal tt ∧
  pools s' = loaded ∧ visited s' = visited s ∧
  currentStampsPage s' = currentStampsPage s ∧
  storage s' = storage s ∧ overlays s' = overlays s.
Proof. repeat split; step_handler; try done; index_absurd. Qed.

Lemma init_selectionValid loaded s : selectionValid (exec (init loaded) s).
Proof.
  unfold selectionValid. destruct (init_effect loaded s) as (_ & -> & _).
  rewrite init_selectedIndex. cbv zeta. rewrite Z.geb_leb.
  destruct (Z.ltb_spec (selectedIndex s) 0);
    [destruct (Z.leb_spec (Z.of_nat (length loaded)) 0)
    | destruct (Z.leb_spec (Z.of_nat (length loaded)) (selectedIndex s))];
    lia.
Qed.

Lemma handle_selectionValid e s :
  selectionValid s → selectionValid (exec (handle e) s).
Proof.
  unfold selectionValid. intros Hs.
  destruct e; step_handler; try lia;
    match goal with
    | Hne : pools s ≠ [] |- _ =>
        pose proof (proj1 (length_pos_nonempty (pools s)) Hne)
    end;
    match goal with
    | |- context [Z.rem ?a ?n] =>
        pose proof (rem_in_range a n ltac:(lia) ltac:(lia))
    end; lia.
Qed.

Lemma session_snoc st ps es e :
  session st ps (es ++ [e]) = exec (handle e) (session st ps es).
Proof. unfold session, run. by rewrite fold_left_app. Qed.

Lemma session_pools st ps es : pools (session st ps es) = ps.
Proof.
  induction es as [|e es IH] using rev_ind.
  - apply init_effect.
  - by rewrite session_snoc, handle_pools.
Qed.

Lemma session_selectionValid st ps es : selectionValid (session st ps es).
Proof.
  induction es as [|e es IH] using rev_ind.
  - apply init_selectionValid.
  - rewrite session_snoc. by apply handle_selectionValid.
Qed.

(** X13. Through every session the selection cursor points into the
    catalog: it lies in [0, length-1] when the catalog has entries and is
    [0] when it has none, so [pools[selectedIndex]] is always a pool of a
    non-empty catalog. *)
Theorem selection_always_valid (st : Storage) (ps : list Pool)
    (es : list Event) :
  let s := session st ps es in
  pools s = ps ∧
  0 ≤ selectedIndex s ≤ Z.max 0 (Z.of_nat (length ps) - 1) ∧
  (ps ≠ [] → is_Some (Js.index ps (selectedIndex s))).
Proof.
  intros s. pose proof (session_selectionValid st ps es) as Hv.
  unfold selectionValid in Hv. fold s in Hv.
  assert (pools s = ps) as Hp by apply session_pools. rewrite Hp in Hv.
  split; [done |]. split; [done |].
  intros Hne%length_pos_nonempty.
  destruct (Js.index ps (selectedIndex s)) eqn:E; [eauto |].
  exfalso. apply (index_in_range _ _ E); lia.
Qed.

Lemma selection_always_valid_witness :
  is_Some (Js.index catalogABC
             (selectedIndex
                (session (mkStorage None (Some 7) None) catalogABC
                   [Down; Down; Up]))).
Proof.
  apply (selection_always_valid (mkStorage None (Some 7) None) catalogABC
           [Down; Down; Up]).
  discriminate.
Defined.

(** ** Overlays *)

(** X16. What a call of [toggleStamp] asks to be shown, in a state whose
    selection points into the catalog: nothing when the call is a no-op;
    otherwise the treasure overlay with the name of the claimed pool,
    followed by the finale overlay exactly when the claim made the count
    of done records equal to the length of a non-empty catalog. *)
Theorem toggleStamp_requests (s : App) (x today : string) :
  selectionValid s →
  let s' := exec (toggleStamp x today) s in
  (visited s' = visited s ∧ overlays s' = overlays s) ∨
  (∃ p, p ∈ pools s ∧ id p = x ∧
        visited s' = <[x := mkVisit true today]> (visited s) ∧
        overlays s' =
          (overlays s ++ TreasureFound (name p) ::
             (if completionReached (visited s') (Z.of_nat (length (pools s)))
              then [AllTreasureFound] else []))%list).
Proof.
  intros Hv s'. subst s'.
  destruct (toggleStamp_effect s x today)
    as [E | (Hne & Hnv & Hp & Hs & _ & Hpools & _)].
  { left. unfold exec. by rewrite E. }
  right. destruct (find_exists _ _ Hp) as [p Hf].
  destruct (find_present _ _ _ Hf) as [Hin Hid].
  exists p. split; [done |]. split; [done |]. split; [exact Hs |].
  assert (is_Some (Js.index (pools s) (selectedIndex s))) as Hidx.
  { assert (pools s ≠ []) as Hne' by (intros E; rewrite E in Hin; inversion Hin).
    apply length_pos_nonempty in Hne'. unfold selectionValid in Hv.
    destruct (Js.index (pools s) (selectedIndex s)) eqn:E; [eauto |].
    exfalso. apply (index_in_range _ _ E); lia. }
  pose proof (toggleStamp_overlays s x today p Hne Hnv Hf Hidx) as Ho.
  cbv zeta in Ho, Hpools. by rewrite Hpools in Ho.
Qed.

Lemma toggleStamp_requests_witness :
  let s' := exec (toggleStamp "C" "03/01/2025") afterBA in
  (visited s' = visited afterBA ∧ overlays s' = overlays afterBA) ∨
  (∃ p, p ∈ pools afterBA ∧ id p = "C" ∧
        visited s' = <["C" := mkVisit true "03/01/2025"]> (visited afterBA) ∧
        overlays s' =
          (overlays afterBA ++ TreasureFound (name p) ::
             (if completionReached (visited s')
                   (Z.of_nat (length (pools afterBA)))
              then [AllTreasureFound] else []))%list).
Proof.
  apply (toggleStamp_requests afterBA "C" "03/01/2025").
  vm_compute. split; discriminate.
Defined.

(** ** The stamps view through a session *)

Lemma handle_stampsView e s :
  selectionValid s → 0 ≤ currentStampsPage s →
  (onStampsView s = true → pageInRange stampsPerPage s) →
  onStampsView (exec (handle e) s) = true →
  pageInRange stampsPerPage (exec (handle e) s).
Proof.
  unfold selectionValid, pageInRange, pageCount. intros Hv Hp Hin.
  destruct e; step_handler; intros Hon;
    try (specialize (Hin Hon)); try discriminate;
    try pages_lia; index_absurd.
Qed.

Lemma session_page_nonneg st ps es :
  0 ≤ readStampsPage st → 0 ≤ currentStampsPage (session st ps es).
Proof.
  intros Hst. induction es as [|e es IH] using rev_ind.
  - unfold session. simpl run.
    destruct (init_effect ps (boot st)) as (_ & _ & _ & -> & _). done.
  - rewrite session_snoc. by apply handle_page_nonneg.
Qed.

(** X17. Whenever the stamps view is on screen, the page it shows is a
    valid one: in every state a session reaches from a store whose page
    index is not negative, if the stamps view is the active view then the
    cursor lies in [0, totalPages-1]. *)
Theorem stamps_view_shows_valid_page (st : Storage) (ps : list Pool)
    (es : list Event) :
  0 ≤ readStampsPage st →
  onStampsView (session st ps es) = true →
  pageInRange stampsPerPage (session st ps es).
Proof.
  intros Hst. induction es as [|e es IH] using rev_ind.
  - unfold session. simpl run. intros Hon. exfalso. revert Hon.
    step_handler; discriminate.
  - rewrite session_snoc. apply handle_stampsView; [| | done].
    + apply session_selectionValid.
    + by apply session_page_nonneg.
Qed.

Lemma stamps_view_shows_valid_page_witness :
  pageInRange stampsPerPage
    (session (mkStorage None None (Some 9)) catalogABC
       [ClaimTreasure "B" "02/01/2025"; ToggleView; Up]).
Proof.
  apply stamps_view_shows_valid_page; [discriminate |].
  vm_compute. reflexivity.
Defined.

(** X18. Loading the page writes nothing: [init] leaves the store, the
    ledger, the stamps page and the overlays as the module initialisers
    set them, for every catalog, also when it moves the selection into
    range. *)
Theorem init_writes_nothing (st : Storage) (ps : list Pool) :
  let s := exec (init ps) (boot st) in
  storage s = st ∧
  visited s = readVisited st ∧
  currentStampsPage s = readStampsPage st ∧
  overlays s = [] ∧
  pools s = ps.
Proof.
  destruct (init_effect ps (boot st)) as (_ & Hp & Hv & Hpg & Hs & Ho).
  cbv zeta in *. rewrite Hp, Hv, Hpg, Hs, Ho. repeat split.
Qed.
